(** * Unigram model fitted by gradient descent: [unigram_pytorch_2.py]

    A shallow embedding of the one-hot encoder, the numeric helpers, the
    [Unigram] module and the training loop of [gradient_descent_example],
    followed by the properties of the specification.

    Numbers.  The program computes on IEEE-754 floats (NumPy float64, Torch
    float32).  The embedding keeps the special values that the code can
    produce at singular points ([log 0 = -inf], [0 * inf = nan], [x / 0]) and
    takes every finite value as an exact real: rounding, overflow and
    underflow are not modelled, signed zeros are identified, and
    [astype("float32")] is the identity.  Statements "up to floating-point
    tolerance" are therefore statements about exact values here.  Where a
    statement depends on the range of float32, the operations are taken
    with [range32], which sends an exact result beyond the largest float32
    to an infinity and one below the smallest subnormal to zero. *)

From Stdlib Require Import String Ascii.
From Stdlib Require Import Reals Lra Lia ZArith Bool List.
Import ListNotations.

Local Open Scope R_scope.

(* ===================================================================== *)
(** ** Numbers: exact reals with the IEEE special values *)
(* ===================================================================== *)

Inductive num : Type :=
| Fin (r : R)
| PInf
| NInf
| NaN.

Definition finite (x : num) : Prop :=
  match x with Fin _ => True | _ => False end.

(** Three-way sign test of a real, used where IEEE picks the sign of an
    infinity. *)
Inductive sign : Type := Neg | Zero | Pos.

Definition Rsign (r : R) : sign :=
  if Rlt_dec 0 r then Pos else if Rlt_dec r 0 then Neg else Zero.

Definition fneg (x : num) : num :=
  match x with
  | Fin r => Fin (- r)
  | PInf => NInf
  | NInf => PInf
  | NaN => NaN
  end.

Definition fadd (x y : num) : num :=
  match x, y with
  | NaN, _ | _, NaN => NaN
  | Fin a, Fin b => Fin (a + b)
  | PInf, NInf | NInf, PInf => NaN
  | PInf, _ | _, PInf => PInf
  | NInf, _ | _, NInf => NInf
  end.

Definition fsub (x y : num) : num := fadd x (fneg y).

(** An infinity of the sign of [r], or [nan] when [r] is zero. *)
Definition inf_signed (positive : bool) (r : R) : num :=
  match Rsign r with
  | Zero => NaN
  | Pos => if positive then PInf else NInf
  | Neg => if positive then NInf else PInf
  end.

Definition fmul (x y : num) : num :=
  match x, y with
  | NaN, _ | _, NaN => NaN
  | Fin a, Fin b => Fin (a * b)
  | Fin a, PInf | PInf, Fin a => inf_signed true a
  | Fin a, NInf | NInf, Fin a => inf_signed false a
  | PInf, PInf | NInf, NInf => PInf
  | PInf, NInf | NInf, PInf => NInf
  end.

Definition fdiv (x y : num) : num :=
  match x, y with
  | NaN, _ | _, NaN => NaN
  | Fin a, Fin b =>
      match Rsign b with
      | Zero => inf_signed true a
      | _ => Fin (a / b)
      end
  | Fin _, _ => Fin 0
  | PInf, Fin b =>
      match Rsign b with Neg => NInf | _ => PInf end
  | NInf, Fin b =>
      match Rsign b with Neg => PInf | _ => NInf end
  | _, _ => NaN
  end.

(** [np.log] / [torch.log]. *)
Definition flog (x : num) : num :=
  match x with
  | Fin r =>
      match Rsign r with
      | Pos => Fin (ln r)
      | Zero => NInf
      | Neg => NaN
      end
  | PInf => PInf
  | NInf => NaN
  | NaN => NaN
  end.

(** [torch.sigmoid]: [1 / (1 + exp (-x))]. *)
Definition fsigmoid (x : num) : num :=
  match x with
  | Fin r => Fin (1 / (1 + exp (- r)))
  | PInf => Fin 1
  | NInf => Fin 0
  | NaN => NaN
  end.

(** The comparison [x >= y] of floats: false as soon as one side is [nan]. *)
Definition fge (x y : num) : Prop :=
  match x, y with
  | NaN, _ | _, NaN => False
  | Fin a, Fin b => b <= a
  | PInf, _ => True
  | _, NInf => True
  | _, _ => False
  end.

(* ===================================================================== *)
(** ** Python exceptions *)
(* ===================================================================== *)

Inductive exn : Type := ValueError | IndexError | RuntimeError.

Inductive result (A : Type) : Type :=
| Ok (a : A)
| Raise (e : exn).
Arguments Ok {A} a.
Arguments Raise {A} e.

Definition rbind {A B : Type} (r : result A) (k : A -> result B) : result B :=
  match r with
  | Ok a => k a
  | Raise e => Raise e
  end.

(** A list comprehension whose body may raise: the first exception wins. *)
Fixpoint rmap {A B : Type} (f : A -> result B) (l : list A) : result (list B) :=
  match l with
  | [] => Ok []
  | a :: l' =>
      rbind (f a) (fun b => rbind (rmap f l') (fun bs => Ok (b :: bs)))
  end.

(* ===================================================================== *)
(** ** Arrays *)
(* ===================================================================== *)

(** An [n]-by-1 array (a column): entry [i] is the element at [[i, 0]]. *)
Definition colvec : Type := list num.

(** An [n]-by-[T] array, as the list of its [n] rows. *)
Definition matrix : Type := list (list num).

(** [np.zeros((n, 1))] *)
Definition zeros (n : nat) : colvec := repeat (Fin 0) n.

(** [np.ones((n, 1))] *)
Definition ones (n : nat) : colvec := repeat (Fin 1) n.

Fixpoint update (i : nat) (v : num) (a : colvec) : colvec :=
  match a, i with
  | [], _ => []
  | _ :: a', O => v :: a'
  | x :: a', S i' => x :: update i' v a'
  end.

(** [a[idx, 0] = v] on an [n]-by-1 array: a negative index counts from the
    end, an index outside [-n .. n-1] raises [IndexError]. *)
Definition setitem (a : colvec) (idx : Z) (v : num) : result colvec :=
  let n := Z.of_nat (length a) in
  if ((idx <? - n) || (n <=? idx))%Z then Raise IndexError
  else Ok (update (Z.to_nat (if (idx <? 0)%Z then idx + n else idx)%Z) v a).

(* ===================================================================== *)
(** ** The one-hot encoder *)
(* ===================================================================== *)

(** [Optional[str]] *)
Definition token : Type := option string.

Definition token_eq_dec (a b : token) : {a = b} + {a <> b}.
Proof. decide equality. apply string_dec. Defined.

(** [vocabulary.index(token)]: the first position holding [token];
    [ValueError] when there is none. *)
Fixpoint index (vocabulary : list token) (tok : token) : result nat :=
  match vocabulary with
  | [] => Raise ValueError
  | v :: rest =>
      if token_eq_dec v tok then Ok O
      else rbind (index rest tok) (fun i => Ok (S i))
  end.

(** The [try ... except ValueError] block of [onehot]: the index that is
    written. *)
Definition onehot_idx (vocabulary : list token) (tok : token) : result Z :=
  match index vocabulary tok with
  | Ok i => Ok (Z.of_nat i)
  | Raise ValueError => Ok (Z.of_nat (length vocabulary) - 1)%Z
  | Raise e => Raise e
  end.

Definition onehot (vocabulary : list token) (tok : token) : result colvec :=
  let embedding := zeros (length vocabulary) in
  rbind (onehot_idx vocabulary tok) (fun idx =>
  setitem embedding idx (Fin 1)).

(* ===================================================================== *)
(** ** Numeric helpers *)
(* ===================================================================== *)

(** [np.log(x) - np.log(1 - x)], elementwise. *)
Definition logit1 (x : num) : num :=
  fsub (flog x) (flog (fsub (Fin 1) x)).

Definition logit (x : colvec) : colvec := map logit1 x.

(** [torch.sum(x)]: the sum of all entries. *)
Definition tsum (x : list num) : num := fold_left fadd x (Fin 0).

(** [x / torch.sum(x)]: every entry divided by the total. *)
Definition normalize (x : colvec) : colvec :=
  map (fun xi => fdiv xi (tsum x)) x.

Definition loss_fn (p : num) : num := fneg p.

(** [torch.sum(input, 1, keepdim=True)]: the [n]-by-1 column of row sums. *)
Definition sum_dim1 (input : matrix) : colvec := map tsum input.

Definition dot (a b : list num) : num :=
  fold_left (fun acc ab => fadd acc (fmul (fst ab) (snd ab)))
            (combine a b) (Fin 0).

(** [a.T @ b] for two columns [a] and [b]: a 1-by-[n] row times an
    [n]-by-1 column, the 1-by-1 result given by its only entry.  Torch
    raises [RuntimeError] when the inner dimensions differ. *)
Definition matmul_T (a b : colvec) : result num :=
  if Nat.eqb (length a) (length b) then Ok (dot a b) else Raise RuntimeError.

(** [np.hstack] of [n]-by-1 columns: row [i] of the result collects entry
    [i] of every column.  NumPy raises [ValueError] on an empty sequence and
    on columns of different heights. *)
Definition hstack (cols : list colvec) : result matrix :=
  match cols with
  | [] => Raise ValueError
  | c :: rest =>
      if forallb (fun c' => Nat.eqb (length c') (length c)) rest
      then Ok (map (fun i => map (fun c' => nth i c' NaN) cols)
                   (seq 0 (length c)))
      else Raise ValueError
  end.

(* ===================================================================== *)
(** ** State and exceptions *)
(* ===================================================================== *)

(** A computation over a mutable state [St] that may raise: the state
    reached so far survives an exception. *)
Definition M (St A : Type) : Type := St -> result A * St.

Definition ret {St A : Type} (a : A) : M St A := fun st => (Ok a, st).

Definition bind {St A B : Type} (m : M St A) (k : A -> M St B) : M St B :=
  fun st =>
    match m st with
    | (Ok a, st') => k a st'
    | (Raise e, st') => (Raise e, st')
    end.

Notation "x <- m ;; k" := (bind m (fun x => k))
  (at level 61, m at next level, right associativity).
Notation "m ;;; k" := (bind m (fun _ => k))
  (at level 61, right associativity).

(** [for i in l: body(i)] *)
Fixpoint for_each {St : Type} (body : nat -> M St unit) (l : list nat)
  : M St unit :=
  match l with
  | [] => ret tt
  | i :: l' => body i ;;; for_each body l'
  end.

(* ===================================================================== *)
(** ** The model *)
(* ===================================================================== *)

(** [nn.Parameter] [s] together with its gradient slot [s.grad]. *)
Record Unigram : Type := mkUnigram {
  s : colvec;
  s_grad : option colvec
}.

(** [Unigram.__init__] *)
Definition Unigram_init (V : nat) : Unigram :=
  let s0 := logit (map (fun o => fdiv o (Fin (INR V))) (ones V)) in
  mkUnigram s0 None.

(** [Unigram.forward] *)
Definition forward (input : matrix) : M Unigram (num * colvec) :=
  fun self =>
    let p := normalize (map fsigmoid (s self)) in
    (rbind (matmul_T (sum_dim1 input) (map flog p)) (fun ll => Ok (ll, p)),
     self).

(* ===================================================================== *)
(** ** The training loop and the report *)
(* ===================================================================== *)

(** [vocabulary = [chr(i + ord("a")) for i in range(26)] + [" ", None]] *)
Definition vocabulary : list token :=
  (map (fun i => Some (String (ascii_of_nat (i + nat_of_ascii "a")) ""%string))
       (seq 0 26)
   ++ [Some " "%string; None])%list.

(** [tokens = [char for char in text]] *)
Fixpoint tokens (text : string) : list token :=
  match text with
  | EmptyString => []
  | String c rest => Some (String c ""%string) :: tokens rest
  end.

Definition num_iterations : nat := 100.
Definition learning_rate : R := 2 / 100.

(** What [gradient_descent_example] hands to the plots. *)
Record report : Type := mkReport {
  r_list_loss : list nat;
  r_list_items : list num;
  r_min : num;
  r_true_p : colvec;
  r_p : option colvec
}.

Section Training.

(** The two services of the Torch library the loop calls.  [autograd s x]
    is the gradient, with respect to [s], of the loss of the forward pass
    on batch [x]; [adam_step lr o s g] is one [Adam] update of the
    parameter [s] with gradient [g] from optimizer state [o]. *)
Variable opt_state : Type.
Variable adam_init : opt_state.
Variable adam_step : R -> opt_state -> colvec -> colvec -> opt_state * colvec.
Variable autograd : colvec -> matrix -> colvec.

(** The variables of [gradient_descent_example] that the loop changes. *)
Record env : Type := mkEnv {
  model : Unigram;
  optimizer : opt_state;
  list_loss : list nat;
  list_items : list num;
  p : option colvec
}.

(** [p_pred, p = model(x)] *)
Definition call_model (x : matrix) : M env num :=
  fun st =>
    match forward x (model st) with
    | (Ok (p_pred, p'), m') =>
        (Ok p_pred,
         mkEnv m' (optimizer st) (list_loss st) (list_items st) (Some p'))
    | (Raise e, m') =>
        (Raise e,
         mkEnv m' (optimizer st) (list_loss st) (list_items st) (p st))
    end.

(** [loss.backward(retain_graph=True)]: the gradient is added into
    [s.grad], or stored there when the slot is empty. *)
Definition backward (x : matrix) : M env unit :=
  fun st =>
    let m := model st in
    let g := autograd (s m) x in
    let g' := match s_grad m with
              | None => g
              | Some old => map (fun ab => fadd (fst ab) (snd ab))
                                (combine old g)
              end in
    (Ok tt,
     mkEnv (mkUnigram (s m) (Some g')) (optimizer st)
           (list_loss st) (list_items st) (p st)).

(** [optimizer.step()]: a parameter without gradient is skipped. *)
Definition optimizer_step : M env unit :=
  fun st =>
    let m := model st in
    match s_grad m with
    | None => (Ok tt, st)
    | Some g =>
        let '(o', s') := adam_step learning_rate (optimizer st) (s m) g in
        (Ok tt,
         mkEnv (mkUnigram s' (s_grad m)) o'
               (list_loss st) (list_items st) (p st))
    end.

(** [optimizer.zero_grad()]: the gradient slot is cleared. *)
Definition optimizer_zero_grad : M env unit :=
  fun st =>
    (Ok tt,
     mkEnv (mkUnigram (s (model st)) None) (optimizer st)
           (list_loss st) (list_items st) (p st)).

(** [list_loss.append(i)] *)
Definition list_loss_append (i : nat) : M env unit :=
  fun st =>
    (Ok tt,
     mkEnv (model st) (optimizer st)
           (list_loss st ++ [i]) (list_items st) (p st)).

(** [list_items.append(loss.item())] *)
Definition list_items_append (v : num) : M env unit :=
  fun st =>
    (Ok tt,
     mkEnv (model st) (optimizer st)
           (list_loss st) (list_items st ++ [v]) (p st)).

(** The body of [for i in range(num_iterations)]. *)
Definition train_step (x : matrix) (i : nat) : M env unit :=
  p_pred <- call_model x ;;
  let loss := fneg p_pred in
  backward x ;;;
  optimizer_step ;;;
  optimizer_zero_grad ;;;
  list_loss_append i ;;;
  list_items_append loss.

Definition train (n : nat) (x : matrix) : M env unit :=
  for_each (train_step x) (seq 0 n).

(** The state on entry to the loop. *)
Definition env0 : env :=
  mkEnv (Unigram_init (length vocabulary)) adam_init [] [] None.

(** [true_p = torch.sum(x, 1, keepdim=True) / len(text)] *)
Definition true_p_of (x : matrix) (text : string) : colvec :=
  map (fun c => fdiv c (Fin (INR (String.length text)))) (sum_dim1 x).

(** [mm = -(torch.sum(x, 1, keepdim=True)).T @ torch.log(true_p)]: the
    unary minus binds tighter than [@], so the counts are negated before
    the product. *)
Definition min_of (x : matrix) (true_p : colvec) : result num :=
  matmul_T (map fneg (sum_dim1 x)) (map flog true_p).

(** [gradient_descent_example], with the lower-cased corpus as argument
    and the plotted values as result. *)
Definition gradient_descent_example (text : string) : result report :=
  rbind (rmap (onehot vocabulary) (tokens text)) (fun cols =>
  rbind (hstack cols) (fun x =>
  match train num_iterations x env0 with
  | (Raise e, _) => Raise e
  | (Ok _, st) =>
      let true_p := true_p_of x text in
      rbind (min_of x true_p) (fun mn =>
      Ok (mkReport (list_loss st) (list_items st) mn true_p (p st)))
  end)).

End Training.

Arguments model {opt_state} e.
Arguments optimizer {opt_state} e.
Arguments list_loss {opt_state} e.
Arguments list_items {opt_state} e.
Arguments p {opt_state} e.
Arguments mkEnv {opt_state} model optimizer list_loss list_items p.
Arguments call_model {opt_state} x _.
Arguments backward {opt_state} autograd x _.
Arguments optimizer_step {opt_state} adam_step _.
Arguments optimizer_zero_grad {opt_state} _.
Arguments list_loss_append {opt_state} i _.
Arguments list_items_append {opt_state} v _.
Arguments train_step {opt_state} adam_step autograd x i _.
Arguments train {opt_state} adam_step autograd n x _.
Arguments env0 {opt_state} adam_init.
Arguments gradient_descent_example {opt_state} adam_init adam_step autograd text.

(* ===================================================================== *)
(** ** The forward pass in the words of the specification *)
(* ===================================================================== *)

(** [bigsum n f] is [f 0 + ... + f (n-1)]. *)
Fixpoint bigsum (n : nat) (f : nat -> num) : num :=
  match n with
  | O => Fin 0
  | S k => fadd (bigsum k f) (f k)
  end.


(** The real function behind [fsigmoid]. *)
Definition Rsigmoid (r : R) : R := 1 / (1 + exp (- r)).

(** The real function behind [logit1]. *)
Definition Rlogit (x : R) : R := ln x - ln (1 - x).

(** The sum of a list of reals. *)
Definition Rsum (l : list R) : R := fold_right Rplus 0 l.

(* ===================================================================== *)
(** ** The training run in the words of the specification *)
(* ===================================================================== *)

(** The log-likelihood that [forward] computes from parameters [sv] on
    batch [x]. *)
Definition loglik (sv : colvec) (x : matrix) : num :=
  dot (sum_dim1 x) (map flog (normalize (map fsigmoid sv))).

Section Trajectory.

Variable opt_state : Type.
Variable adam_init : opt_state.
Variable adam_step : R -> opt_state -> colvec -> colvec -> opt_state * colvec.
Variable autograd : colvec -> matrix -> colvec.

(** One iteration seen from the optimizer: the gradient of the loss at
    the current parameters, then one update. *)
Definition adam_update (x : matrix) (os : opt_state * colvec)
  : opt_state * colvec :=
  adam_step learning_rate (fst os) (snd os) (autograd (snd os) x).

(** Optimizer state and parameters after [k] iterations. *)
Definition trajectory (x : matrix) (k : nat) : opt_state * colvec :=
  Nat.iter k (adam_update x)
           (adam_init, s (Unigram_init (length vocabulary))).

(** The loss recorded by iteration [k]. *)
Definition loss_at (x : matrix) (k : nat) : num :=
  fneg (loglik (snd (trajectory x k)) x).

End Trajectory.

Arguments adam_update {opt_state} adam_step autograd x os.
Arguments trajectory {opt_state} adam_init adam_step autograd x k.
Arguments loss_at {opt_state} adam_init adam_step autograd x k.

(** The vocabulary position a token is encoded at. *)
Definition resolve (voc : list token) (tok : token) : nat :=
  match index voc tok with
  | Ok i => i
  | Raise _ => (length voc - 1)%nat
  end.

(** How many tokens are encoded at position [i]. *)
Definition occurrences (voc : list token) (toks : list token) (i : nat) : nat :=
  count_occ Nat.eq_dec (map (resolve voc) toks) i.

(** The column with 1.0 at position [k] and 0.0 elsewhere. *)
Definition unit_col (n k : nat) : colvec :=
  map (fun i => if Nat.eqb i k then Fin 1 else Fin 0) (seq 0 n).

(** The encoding matrix of a token sequence: entry [[i, t]] tells whether
    token [t] is encoded at position [i]. *)
Definition encoding_matrix (voc : list token) (toks : list token) : matrix :=
  map (fun i => map (fun tok => if Nat.eqb i (resolve voc tok)
                                then Fin 1 else Fin 0) toks)
      (seq 0 (length voc)).

(** Every vocabulary position is hit by some token of the corpus. *)
Definition covers (text : string) : bool :=
  forallb (fun i => negb (Nat.eqb (occurrences vocabulary (tokens text) i) 0))
          (seq 0 (length vocabulary)).

(** A stand-in for the library's optimizer and gradient, used to run the
    loop on concrete corpora: plain gradient descent, no optimizer state. *)
Definition sgd_step (lr : R) (o : unit) (sv g : colvec) : unit * colvec :=
  (o, map (fun ab => fsub (fst ab) (fmul (Fin lr) (snd ab))) (combine sv g)).

Definition zero_gradient (sv : colvec) (x : matrix) : colvec :=
  map (fun _ => Fin 0) sv.

(** The position of a one-character token in [vocabulary]: letters in
    alphabetical order, then the space, then the sentinel for the rest. *)
Definition char_position (c : ascii) : nat :=
  let n := nat_of_ascii c in
  if Nat.leb 97 n && Nat.leb n 122 then (n - 97)%nat
  else if Nat.eqb n 32 then 26%nat
  else 27%nat.

(** [difference_list = [x - y for x, y in zip(true_p, p)]]: [zip] stops at
    the shorter argument. *)
Definition difference_list (true_p p : colvec) : list num :=
  map (fun xy => fsub (fst xy) (snd xy)) (combine true_p p).

(* ===================================================================== *)
(** ** The range of float32 *)
(* ===================================================================== *)






(** The theoretical minimum in the words of the specification: the
    negative log-likelihood of the corpus under its empirical frequencies
    [count / T]; a symbol that never occurs contributes no term. *)
Definition spec_minimum (counts : list nat) (T : nat) : R :=
  Rsum (map (fun c => match c with
                      | O => 0
                      | S _ => - (INR c * ln (INR c / INR T))
                      end) counts).

(* ===================================================================== *)
(** * Properties *)
(* ===================================================================== *)

(** ** The one-hot encoder *)

Lemma index_In (voc : list token) (tok : token) :
  In tok voc ->
  exists i, index voc tok = Ok i /\ (i < length voc)%nat /\
            nth_error voc i = Some tok /\
            forall j, (j < i)%nat -> nth_error voc j <> Some tok.
Proof.
  induction voc as [|v rest IH]; simpl; [tauto|].
  intros Hin. destruct (token_eq_dec v tok) as [->|Hne].
  - exists O. repeat split; lia.
  - destruct Hin as [Heq|Hin]; [contradiction|].
    destruct (IH Hin) as (i & Hi & Hlt & Hnth & Hfirst).
    exists (S i). rewrite Hi. simpl. repeat split; try lia; auto.
    intros [|j] Hj; simpl.
    + congruence.
    + apply Hfirst. lia.
Qed.

Lemma index_not_In (voc : list token) (tok : token) :
  ~ In tok voc -> index voc tok = Raise ValueError.
Proof.
  induction voc as [|v rest IH]; simpl; [reflexivity|].
  intros Hnin. destruct (token_eq_dec v tok) as [->|Hne]; [tauto|].
  rewrite IH by tauto. reflexivity.
Qed.

Lemma index_Ok_lt (voc : list token) (tok : token) (i : nat) :
  index voc tok = Ok i -> (i < length voc)%nat.
Proof.
  revert i. induction voc as [|v rest IH]; simpl; intros i; [discriminate|].
  destruct (token_eq_dec v tok).
  - intros [= <-]. lia.
  - destruct (index rest tok) as [k|e]; simpl; [|discriminate].
    intros [= <-]. specialize (IH k eq_refl). lia.
Qed.

Lemma index_Raise (voc : list token) (tok : token) (e : exn) :
  index voc tok = Raise e -> e = ValueError /\ ~ In tok voc.
Proof.
  induction voc as [|v rest IH]; simpl.
  - intros [= <-]. tauto.
  - destruct (token_eq_dec v tok); [discriminate|].
    destruct (index rest tok) as [k|e']; simpl; [discriminate|].
    intros [= <-]. destruct (IH eq_refl) as [-> Hn]. split; [reflexivity|].
    tauto.
Qed.

Lemma length_zeros (n : nat) : length (zeros n) = n.
Proof. apply repeat_length. Qed.

Lemma length_update (i : nat) (v : num) (a : colvec) :
  length (update i v a) = length a.
Proof.
  revert i. induction a as [|x a IH]; intros [|i]; simpl; auto.
Qed.

Lemma nth_update (i j : nat) (v : num) (a : colvec) :
  (i < length a)%nat ->
  nth j (update i v a) NaN = if Nat.eqb j i then v else nth j a NaN.
Proof.
  revert i j. induction a as [|x a IH]; intros i j Hi; simpl in Hi; [lia|].
  destruct i as [|i], j as [|j]; simpl; auto.
  apply IH. lia.
Qed.

Lemma nth_zeros (n j : nat) : (j < n)%nat -> nth j (zeros n) NaN = Fin 0.
Proof.
  intros Hj. unfold zeros. rewrite nth_repeat_lt by exact Hj. reflexivity.
Qed.

(** Writing at a position [i] in range never raises and yields the unit
    column of that position. *)
Lemma setitem_zeros (n i : nat) :
  (i < n)%nat ->
  exists e, setitem (zeros n) (Z.of_nat i) (Fin 1) = Ok e /\
            length e = n /\
            forall j, (j < n)%nat ->
                      nth j e NaN = if Nat.eqb j i then Fin 1 else Fin 0.
Proof.
  intros Hi. unfold setitem. rewrite length_zeros.
  replace ((Z.of_nat i <? - Z.of_nat n) || (Z.of_nat n <=? Z.of_nat i))%Z
    with false
    by (symmetry; apply orb_false_iff; split;
        [apply Z.ltb_ge | apply Z.leb_gt]; lia).
  replace (Z.of_nat i <? 0)%Z with false by (symmetry; apply Z.ltb_ge; lia).
  rewrite Nat2Z.id.
  eexists. split; [reflexivity|]. split.
  - rewrite length_update. apply length_zeros.
  - intros j Hj. rewrite nth_update by (rewrite length_zeros; exact Hi).
    rewrite nth_zeros by exact Hj. reflexivity.
Qed.

(** C4: for a token of the vocabulary, [onehot] returns a column of the
    vocabulary's length that holds 1.0 at the token's index (its first
    position in the vocabulary) and 0.0 at every other index. *)
Theorem onehot_present (voc : list token) (tok : token) :
  In tok voc ->
  exists i e,
    index voc tok = Ok i /\
    nth_error voc i = Some tok /\
    (forall j, (j < i)%nat -> nth_error voc j <> Some tok) /\
    onehot voc tok = Ok e /\
    length e = length voc /\
    forall j, (j < length voc)%nat ->
              nth j e NaN = if Nat.eqb j i then Fin 1 else Fin 0.
Proof.
  intros Hin.
  destruct (index_In voc tok Hin) as (i & Hi & Hlt & Hnth & Hfirst).
  destruct (setitem_zeros (length voc) i Hlt) as (e & He & Hlen & Hval).
  exists i, e. unfold onehot, onehot_idx. rewrite Hi. simpl.
  repeat split; assumption.
Qed.

Lemma onehot_present_witness :
  exists i e,
    index [Some "a"%string; Some "b"%string; None] (Some "b"%string) = Ok i /\
    nth_error [Some "a"%string; Some "b"%string; None] i
      = Some (Some "b"%string) /\
    (forall j, (j < i)%nat ->
       nth_error [Some "a"%string; Some "b"%string; None] j
         <> Some (Some "b"%string)) /\
    onehot [Some "a"%string; Some "b"%string; None] (Some "b"%string) = Ok e /\
    length e = length [Some "a"%string; Some "b"%string; None] /\
    forall j, (j < length [Some "a"%string; Some "b"%string; None])%nat ->
              nth j e NaN = if Nat.eqb j i then Fin 1 else Fin 0.
Proof.
  apply (onehot_present [Some "a"%string; Some "b"%string; None]
                        (Some "b"%string)).
  simpl. right. left. reflexivity.
Defined.

Lemma onehot_idx_absent (voc : list token) (tok : token) :
  ~ In tok voc -> onehot_idx voc tok = Ok (Z.of_nat (length voc) - 1)%Z.
Proof.
  intros Hnin. unfold onehot_idx. rewrite index_not_In by exact Hnin.
  reflexivity.
Qed.

Lemma last_index_nat (n : nat) :
  n <> O -> (Z.of_nat n - 1)%Z = Z.of_nat (n - 1).
Proof. intros Hn. lia. Qed.

Lemma length_nonempty {A : Type} (l : list A) : l <> [] -> length l <> O.
Proof. destruct l; simpl; congruence. Qed.

(** C5: for a token absent from a vocabulary (which has a last entry, the
    sentinel), [onehot] raises nothing and returns the column whose only
    1.0 is at the last position [V-1]. *)
Theorem onehot_absent (voc : list token) (tok : token) :
  voc <> [] ->
  ~ In tok voc ->
  exists e,
    onehot voc tok = Ok e /\
    length e = length voc /\
    forall j, (j < length voc)%nat ->
              nth j e NaN = if Nat.eqb j (length voc - 1) then Fin 1 else Fin 0.
Proof.
  intros Hne Hnin. apply length_nonempty in Hne.
  destruct (setitem_zeros (length voc) (length voc - 1)) as (e & He & Hlen & Hval);
    [lia|].
  exists e. unfold onehot. rewrite onehot_idx_absent by exact Hnin. simpl.
  rewrite last_index_nat by exact Hne. auto.
Qed.

Lemma onehot_absent_witness :
  exists e,
    onehot [Some "a"%string; Some " "%string; None] (Some "?"%string) = Ok e /\
    length e = length [Some "a"%string; Some " "%string; None] /\
    forall j, (j < length [Some "a"%string; Some " "%string; None])%nat ->
      nth j e NaN
      = if Nat.eqb j (length [Some "a"%string; Some " "%string; None] - 1)
        then Fin 1 else Fin 0.
Proof.
  apply (onehot_absent [Some "a"%string; Some " "%string; None]
                       (Some "?"%string)).
  - discriminate.
  - simpl. intros [H|[H|[H|[]]]]; discriminate H.
Defined.

(** C9: on a non-empty vocabulary the index that [onehot] writes lies in
    [0 .. V-1] for every token, so the write never raises; when the lookup
    raises, the index is [V-1]. *)
Theorem onehot_idx_in_bounds (voc : list token) (tok : token) :
  voc <> [] ->
  exists idx,
    onehot_idx voc tok = Ok idx /\
    (0 <= idx < Z.of_nat (length voc))%Z /\
    (forall e, index voc tok = Raise e ->
               idx = (Z.of_nat (length voc) - 1)%Z) /\
    exists emb, onehot voc tok = Ok emb /\ length emb = length voc.
Proof.
  intros Hne. apply length_nonempty in Hne.
  unfold onehot, onehot_idx.
  destruct (index voc tok) as [i|e] eqn:Hidx.
  - pose proof (index_Ok_lt voc tok i Hidx) as Hlt.
    exists (Z.of_nat i). split; [reflexivity|]. split; [lia|].
    split; [discriminate|]. simpl.
    destruct (setitem_zeros (length voc) i Hlt) as (emb & He & Hlen & _).
    exists emb. auto.
  - destruct (index_Raise voc tok e Hidx) as [-> _].
    exists (Z.of_nat (length voc) - 1)%Z. split; [reflexivity|].
    split; [lia|]. split; [reflexivity|]. simpl.
    rewrite last_index_nat by exact Hne.
    destruct (setitem_zeros (length voc) (length voc - 1)) as (emb & He & Hlen & _);
      [lia|].
    exists emb. auto.
Qed.

Lemma onehot_idx_in_bounds_witness :
  exists idx,
    onehot_idx [Some "x"%string; None] None = Ok idx /\
    (0 <= idx < Z.of_nat (length [Some "x"%string; None]))%Z /\
    (forall e, index [Some "x"%string; None] None = Raise e ->
               idx = (Z.of_nat (length [Some "x"%string; None]) - 1)%Z) /\
    exists emb, onehot [Some "x"%string; None] None = Ok emb /\
                length emb = length [Some "x"%string; None].
Proof.
  apply (onehot_idx_in_bounds [Some "x"%string; None] None).
  discriminate.
Defined.

(** ** Signs, sigmoid and logit over the reals *)

Lemma Rsign_pos (r : R) : 0 < r -> Rsign r = Pos.
Proof.
  intros Hr. unfold Rsign. destruct (Rlt_dec 0 r); [reflexivity|contradiction].
Qed.

Lemma Rsign_neg (r : R) : r < 0 -> Rsign r = Neg.
Proof.
  intros Hr. unfold Rsign.
  destruct (Rlt_dec 0 r); [lra|].
  destruct (Rlt_dec r 0); [reflexivity|contradiction].
Qed.

Lemma Rsign_zero : Rsign 0 = Zero.
Proof.
  unfold Rsign. destruct (Rlt_dec 0 0); [lra|]. reflexivity.
Qed.

Lemma Rsigmoid_range (r : R) : 0 < Rsigmoid r < 1.
Proof.
  unfold Rsigmoid. pose proof (exp_pos (- r)) as He.
  assert (Hd : 0 < 1 + exp (- r)) by lra.
  split.
  - apply Rdiv_lt_0_compat; lra.
  - apply Rmult_lt_reg_r with (1 + exp (- r)); [exact Hd|].
    unfold Rdiv. rewrite Rmult_assoc, Rinv_l by lra. lra.
Qed.

Lemma Rsigmoid_compl (r : R) : 1 - Rsigmoid r = exp (- r) * / (1 + exp (- r)).
Proof.
  unfold Rsigmoid. pose proof (exp_pos (- r)) as He. field. lra.
Qed.

Lemma Rlogit_sigmoid (r : R) : Rlogit (Rsigmoid r) = r.
Proof.
  unfold Rlogit. rewrite Rsigmoid_compl. unfold Rsigmoid.
  pose proof (exp_pos (- r)) as He.
  assert (Hd : 0 < 1 + exp (- r)) by lra.
  assert (Hi : 0 < / (1 + exp (- r))) by (apply Rinv_0_lt_compat; exact Hd).
  unfold Rdiv. rewrite Rmult_1_l.
  rewrite ln_mult by assumption. rewrite ln_exp. lra.
Qed.

Lemma Rsigmoid_logit (x : R) : 0 < x < 1 -> Rsigmoid (Rlogit x) = x.
Proof.
  intros [H0 H1]. unfold Rsigmoid, Rlogit.
  replace (- (ln x - ln (1 - x))) with (ln (1 - x) + - ln x) by lra.
  rewrite exp_plus, exp_Ropp, !exp_ln by lra.
  field. lra.
Qed.

Lemma fsigmoid_Fin (r : R) : fsigmoid (Fin r) = Fin (Rsigmoid r).
Proof. reflexivity. Qed.

Lemma logit1_Fin (x : R) : 0 < x < 1 -> logit1 (Fin x) = Fin (Rlogit x).
Proof.
  intros [H0 H1]. unfold logit1, fsub, Rlogit. simpl.
  rewrite Rsign_pos by exact H0.
  replace (1 + - x) with (1 - x) by lra.
  rewrite Rsign_pos by lra. simpl. reflexivity.
Qed.

(** C7: [logit] is [ln x - ln (1 - x)] on (0,1), and [logit] and [sigmoid]
    undo each other there, entry by entry. *)
Theorem logit_sigmoid_roundtrip (xs : list R) :
  Forall (fun x => 0 < x < 1) xs ->
  logit (map Fin xs) = map (fun x => Fin (ln x - ln (1 - x))) xs /\
  logit (map fsigmoid (map Fin xs)) = map Fin xs /\
  map fsigmoid (logit (map Fin xs)) = map Fin xs.
Proof.
  induction 1 as [|x xs Hx Hxs (IH1 & IH2 & IH3)]; [repeat split|].
  unfold logit in *. cbn [map]. rewrite IH3, IH2, IH1.
  rewrite logit1_Fin by exact Hx.
  rewrite !fsigmoid_Fin.
  rewrite logit1_Fin by apply Rsigmoid_range.
  rewrite Rlogit_sigmoid, Rsigmoid_logit by exact Hx.
  repeat split.
Qed.

Lemma logit_sigmoid_roundtrip_witness :
  logit (map Fin [1 / 2; 1 / 4])
    = map (fun x => Fin (ln x - ln (1 - x))) [1 / 2; 1 / 4] /\
  logit (map fsigmoid (map Fin [1 / 2; 1 / 4])) = map Fin [1 / 2; 1 / 4] /\
  map fsigmoid (logit (map Fin [1 / 2; 1 / 4])) = map Fin [1 / 2; 1 / 4].
Proof.
  apply (logit_sigmoid_roundtrip [1 / 2; 1 / 4]).
  repeat constructor; lra.
Defined.

(** ** Sums *)

Lemma fadd_0_l (x : num) : fadd (Fin 0) x = x.
Proof. destruct x; simpl; try reflexivity. f_equal. lra. Qed.

Lemma fold_fadd_Fin (rs : list R) (a : R) :
  fold_left fadd (map Fin rs) (Fin a) = Fin (a + Rsum rs).
Proof.
  revert a. induction rs as [|r rs IH]; intros a; simpl.
  - f_equal. lra.
  - rewrite IH. f_equal. lra.
Qed.

Lemma tsum_Fin (rs : list R) : tsum (map Fin rs) = Fin (Rsum rs).
Proof.
  unfold tsum. rewrite fold_fadd_Fin. f_equal. lra.
Qed.

Lemma Rsum_nonneg (rs : list R) : Forall (fun r => 0 <= r) rs -> 0 <= Rsum rs.
Proof.
  induction 1 as [|r rs Hr _ IH]; simpl; lra.
Qed.

Lemma Rsum_pos (rs : list R) :
  Forall (fun r => 0 <= r) rs -> Exists (fun r => r <> 0) rs -> 0 < Rsum rs.
Proof.
  intros Hall Hex. induction Hex as [r rs Hr|r rs Hex IH];
    inversion Hall as [|? ? Hr0 Hrs]; subst; simpl.
  - pose proof (Rsum_nonneg rs Hrs). lra.
  - specialize (IH Hrs). lra.
Qed.

Lemma Rsum_scale (rs : list R) (c : R) :
  Rsum (map (fun r => r * c) rs) = Rsum rs * c.
Proof.
  induction rs as [|r rs IH]; simpl; [lra|]. rewrite IH. lra.
Qed.

Lemma fdiv_Fin (a b : R) : 0 < b -> fdiv (Fin a) (Fin b) = Fin (a / b).
Proof. intros Hb. simpl. rewrite Rsign_pos by exact Hb. reflexivity. Qed.

(** Normalizing reals of positive total: the result in closed form. *)
Lemma normalize_Fin (rs : list R) :
  0 < Rsum rs ->
  normalize (map Fin rs) = map Fin (map (fun r => r * / Rsum rs) rs).
Proof.
  intros Hpos. unfold normalize. rewrite tsum_Fin, !map_map.
  apply map_ext. intros r. apply fdiv_Fin. exact Hpos.
Qed.




(** ** Folds as indexed sums *)

Lemma bigsum_ext (n : nat) (f g : nat -> num) :
  (forall i, (i < n)%nat -> f i = g i) -> bigsum n f = bigsum n g.
Proof.
  induction n as [|n IH]; intros H; simpl; [reflexivity|].
  rewrite IH by (intros i Hi; apply H; lia).
  rewrite H by lia. reflexivity.
Qed.

Lemma fold_left_bigsum {A : Type} (h : A -> num) (d : A) (l : list A) :
  fold_left (fun acc x => fadd acc (h x)) l (Fin 0)
  = bigsum (length l) (fun i => h (nth i l d)).
Proof.
  induction l as [|a l IH] using rev_ind; [reflexivity|].
  rewrite fold_left_app, length_app, Nat.add_1_r. simpl.
  rewrite IH, nth_middle. f_equal.
  apply bigsum_ext. intros i Hi. rewrite app_nth1 by exact Hi. reflexivity.
Qed.


Lemma dot_bigsum (a b : list num) :
  length a = length b ->
  dot a b = bigsum (length b) (fun i => fmul (nth i a NaN) (nth i b NaN)).
Proof.
  intros Hlen. unfold dot.
  rewrite (fold_left_bigsum (fun ab => fmul (fst ab) (snd ab)) (NaN, NaN)).
  rewrite length_combine, Hlen, Nat.min_id.
  apply bigsum_ext. intros i Hi.
  rewrite combine_nth by exact Hlen. reflexivity.
Qed.




(** ** The forward pass *)




(** ** Initialization *)

Lemma INR_pos (V : nat) : V <> O -> 0 < INR V.
Proof. intros HV. apply lt_0_INR. lia. Qed.

Lemma Rsum_repeat (x : R) (n : nat) : Rsum (repeat x n) = INR n * x.
Proof.
  induction n as [|n IH]; [simpl; lra|].
  cbn [repeat Rsum fold_right]. fold (Rsum (repeat x n)).
  rewrite IH, S_INR. lra.
Qed.

Lemma logit1_one : logit1 (Fin 1) = PInf.
Proof.
  unfold logit1, fsub. simpl.
  rewrite Rsign_pos by lra.
  replace (1 + - (1)) with 0 by lra. rewrite Rsign_zero. reflexivity.
Qed.

(** [sigmoid] undoes [logit] at [1/V], also at the end point [V = 1] where
    the logit is infinite. *)
Lemma sigmoid_logit_inv_V (V : nat) :
  V <> O -> fsigmoid (logit1 (Fin (1 / INR V))) = Fin (1 / INR V).
Proof.
  intros HV. destruct (Nat.eq_dec V 1) as [->|H1].
  - simpl INR. replace (1 / 1) with 1 by lra.
    rewrite logit1_one. reflexivity.
  - assert (Hlt : 1 < INR V) by (apply (lt_INR 1); lia).
    assert (Hx : 0 < 1 / INR V < 1).
    { split.
      - apply Rdiv_lt_0_compat; lra.
      - apply Rmult_lt_reg_r with (INR V); [lra|].
        unfold Rdiv. rewrite Rmult_assoc, Rinv_l by lra. lra. }
    rewrite logit1_Fin by exact Hx.
    rewrite fsigmoid_Fin, Rsigmoid_logit by exact Hx. reflexivity.
Qed.

Lemma normalize_uniform (V : nat) :
  normalize (repeat (Fin (1 / INR V)) V) = repeat (Fin (1 / INR V)) V.
Proof.
  destruct (Nat.eq_dec V 0) as [->|HV]; [reflexivity|].
  pose proof (INR_pos V HV) as Hpos.
  assert (Hsum : Rsum (repeat (1 / INR V) V) = 1)
    by (rewrite Rsum_repeat; field; lra).
  rewrite <- (map_repeat (1 / INR V) V Fin).
  rewrite normalize_Fin by lra.
  rewrite Hsum, !map_repeat. do 2 f_equal. field. lra.
Qed.

Lemma Unigram_init_s (V : nat) :
  s (Unigram_init V) = repeat (logit1 (Fin (1 / INR V))) V.
Proof.
  unfold Unigram_init, logit, ones. cbn [s].
  rewrite !map_repeat.
  destruct (Nat.eq_dec V 0) as [->|HV]; [reflexivity|].
  rewrite fdiv_Fin by (apply INR_pos; exact HV). reflexivity.
Qed.

Lemma Unigram_init_p (V : nat) :
  normalize (map fsigmoid (s (Unigram_init V))) = repeat (Fin (1 / INR V)) V.
Proof.
  rewrite Unigram_init_s, map_repeat.
  destruct (Nat.eq_dec V 0) as [->|HV]; [reflexivity|].
  rewrite sigmoid_logit_inv_V by exact HV.
  apply normalize_uniform.
Qed.

Lemma length_vocabulary : length vocabulary = 28%nat.
Proof. reflexivity. Qed.

(** C2: a fresh model has every entry of [s] equal to [logit(1/V)] and
    induces the uniform distribution, every entry of [p] being [1/V]; for
    the 28 symbols of the vocabulary that is [1/28], and zero iterations of
    the loop leave that model as it is. *)
Theorem init_uniform :
  (forall V : nat,
      s (Unigram_init V) = repeat (logit1 (Fin (1 / INR V))) V /\
      normalize (map fsigmoid (s (Unigram_init V)))
      = repeat (Fin (1 / INR V)) V) /\
  (forall (opt_state : Type) (adam_init : opt_state)
          (adam_step : R -> opt_state -> colvec -> colvec -> opt_state * colvec)
          (autograd : colvec -> matrix -> colvec) (x : matrix),
      let st := snd (train adam_step autograd 0 x (env0 adam_init)) in
      model st = Unigram_init 28 /\
      normalize (map fsigmoid (s (model st)))
      = repeat (Fin (1 / 28)) 28).
Proof.
  split.
  - intros V. split; [apply Unigram_init_s|apply Unigram_init_p].
  - intros opt_state adam_init adam_step autograd x. cbn zeta.
    unfold train. cbn [seq for_each ret snd env0 model].
    rewrite length_vocabulary. split; [reflexivity|].
    rewrite Unigram_init_p, INR_IZR_INZ. reflexivity.
Qed.

(** ** The model's state across the loop *)

Lemma forward_ok (input : matrix) (self : Unigram) :
  length input = length (s self) ->
  forward input self
  = (Ok (loglik (s self) input, normalize (map fsigmoid (s self))), self).
Proof.
  intros Hlen. unfold forward, matmul_T, loglik.
  replace (length (sum_dim1 input) =?
           length (map flog (normalize (map fsigmoid (s self)))))%nat
    with true; [reflexivity|].
  symmetry. apply Nat.eqb_eq.
  unfold sum_dim1, normalize. rewrite !length_map. exact Hlen.
Qed.

Section LoopProperties.

Variable opt_state : Type.
Variable adam_init : opt_state.
Variable adam_step : R -> opt_state -> colvec -> colvec -> opt_state * colvec.
Variable autograd : colvec -> matrix -> colvec.

(** C10: [forward] leaves the model as it found it, whatever the batch
    and whether or not it raises; in the loop, calling the model, the
    backward pass, the gradient reset and the two appends keep [s], and
    [optimizer.step()] is the one statement that replaces it. *)
Theorem forward_keeps_parameters :
  (forall (input : matrix) (self : Unigram),
      snd (forward input self) = self) /\
  (forall (x : matrix) (i : nat) (v : num) (st : env opt_state),
      s (model (snd (call_model x st))) = s (model st) /\
      s (model (snd (backward autograd x st))) = s (model st) /\
      s (model (snd (optimizer_zero_grad st))) = s (model st) /\
      s (model (snd (list_loss_append i st))) = s (model st) /\
      s (model (snd (list_items_append v st))) = s (model st)) /\
  (forall (st : env opt_state) (g : colvec),
      s_grad (model st) = Some g ->
      s (model (snd (optimizer_step adam_step st)))
      = snd (adam_step learning_rate (optimizer st) (s (model st)) g)).
Proof.
  split; [reflexivity|]. split.
  - intros x i v st. repeat split.
    unfold call_model. cbn [forward].
    destruct (rbind _ _) as [[ll p']|e]; reflexivity.
  - intros st g Hg. unfold optimizer_step. rewrite Hg.
    destruct (adam_step _ _ _ _) as [o' s']. reflexivity.
Qed.

End LoopProperties.


(** ** The encoding matrix *)

Lemma resolve_lt (voc : list token) (tok : token) :
  voc <> [] -> (resolve voc tok < length voc)%nat.
Proof.
  intros Hne. apply length_nonempty in Hne. unfold resolve.
  destruct (index voc tok) as [i|e] eqn:Hidx; [|lia].
  exact (index_Ok_lt voc tok i Hidx).
Qed.

Lemma onehot_idx_resolve (voc : list token) (tok : token) :
  voc <> [] -> onehot_idx voc tok = Ok (Z.of_nat (resolve voc tok)).
Proof.
  intros Hne. apply length_nonempty in Hne. unfold onehot_idx, resolve.
  destruct (index voc tok) as [i|e] eqn:Hidx; [reflexivity|].
  destruct (index_Raise voc tok e Hidx) as [-> _].
  rewrite last_index_nat by exact Hne. reflexivity.
Qed.

Lemma length_unit_col (n k : nat) : length (unit_col n k) = n.
Proof. unfold unit_col. rewrite length_map. apply length_seq. Qed.

Lemma nth_unit_col (n k i : nat) :
  (i < n)%nat ->
  nth i (unit_col n k) NaN = if Nat.eqb i k then Fin 1 else Fin 0.
Proof.
  intros Hi. unfold unit_col.
  rewrite (nth_indep _ NaN (if Nat.eqb n k then Fin 1 else Fin 0))
    by (rewrite length_map, length_seq; exact Hi).
  rewrite (map_nth (fun j => if Nat.eqb j k then Fin 1 else Fin 0)).
  rewrite seq_nth by exact Hi. reflexivity.
Qed.

Lemma onehot_unit_col (voc : list token) (tok : token) :
  voc <> [] ->
  onehot voc tok = Ok (unit_col (length voc) (resolve voc tok)).
Proof.
  intros Hne. unfold onehot.
  rewrite onehot_idx_resolve by exact Hne. cbn [rbind].
  destruct (setitem_zeros (length voc) (resolve voc tok)
                          (resolve_lt voc tok Hne)) as (e & -> & Hlen & Hval).
  f_equal. apply nth_ext with (d := NaN) (d' := NaN).
  - rewrite length_unit_col. exact Hlen.
  - intros j Hj. rewrite Hlen in Hj.
    rewrite Hval, nth_unit_col by exact Hj. reflexivity.
Qed.

Lemma rmap_onehot (voc : list token) (toks : list token) :
  voc <> [] ->
  rmap (onehot voc) toks
  = Ok (map (fun tok => unit_col (length voc) (resolve voc tok)) toks).
Proof.
  intros Hne. induction toks as [|tok toks IH]; [reflexivity|].
  cbn [rmap map]. rewrite onehot_unit_col by exact Hne.
  cbn [rbind]. rewrite IH. reflexivity.
Qed.

Lemma hstack_unit_cols (voc : list token) (toks : list token) :
  toks <> [] ->
  hstack (map (fun tok => unit_col (length voc) (resolve voc tok)) toks)
  = Ok (encoding_matrix voc toks).
Proof.
  intros Hne. destruct toks as [|tok toks]; [congruence|].
  unfold hstack. cbn [map].
  replace (forallb _ _) with true.
  - rewrite length_unit_col. unfold encoding_matrix. apply f_equal.
    apply map_ext_in. intros i Hi. apply in_seq in Hi.
    change (map (fun c' => nth i c' NaN)
                (map (fun t => unit_col (length voc) (resolve voc t))
                     (tok :: toks))
            = map (fun t => if Nat.eqb i (resolve voc t) then Fin 1 else Fin 0)
                  (tok :: toks)).
    rewrite map_map. apply map_ext. intros t.
    apply nth_unit_col. lia.
  - symmetry. apply forallb_forall. intros c Hc.
    apply in_map_iff in Hc. destruct Hc as (t & <- & _).
    rewrite !length_unit_col. apply Nat.eqb_refl.
Qed.

Lemma length_encoding_matrix (voc toks : list token) :
  length (encoding_matrix voc toks) = length voc.
Proof.
  unfold encoding_matrix. rewrite length_map. apply length_seq.
Qed.

Lemma tokens_nonempty (text : string) :
  text <> EmptyString -> tokens text <> [].
Proof. destruct text; simpl; congruence. Qed.

Lemma length_tokens (text : string) :
  length (tokens text) = String.length text.
Proof.
  induction text as [|c text IH]; simpl; [reflexivity|].
  rewrite IH. reflexivity.
Qed.

Lemma vocabulary_nonempty : vocabulary <> [].
Proof. discriminate. Qed.

(** The encodings of a non-empty corpus. *)
Lemma encodings_ok (text : string) :
  text <> EmptyString ->
  rbind (rmap (onehot vocabulary) (tokens text)) hstack
  = Ok (encoding_matrix vocabulary (tokens text)).
Proof.
  intros Hne. rewrite rmap_onehot by exact vocabulary_nonempty.
  cbn [rbind]. apply hstack_unit_cols, tokens_nonempty, Hne.
Qed.

(** ** Counts, empirical frequencies and the two losses *)

Lemma Rsum_indicator (voc toks : list token) (i : nat) :
  Rsum (map (fun tok => if Nat.eqb i (resolve voc tok) then 1 else 0) toks)
  = INR (occurrences voc toks i).
Proof.
  unfold occurrences. induction toks as [|tok toks IH]; [reflexivity|].
  cbn [map Rsum fold_right].
  fold (Rsum (map (fun tok => if Nat.eqb i (resolve voc tok) then 1 else 0)
                  toks)).
  rewrite IH. destruct (Nat.eqb_spec i (resolve voc tok)) as [Heq|Hneq].
  - rewrite count_occ_cons_eq by (symmetry; exact Heq).
    rewrite S_INR. lra.
  - rewrite count_occ_cons_neq by (intros H; apply Hneq; symmetry; exact H).
    lra.
Qed.

(** Row sums of the encoding matrix are the occurrence counts. *)
Lemma sum_dim1_encoding (voc toks : list token) :
  sum_dim1 (encoding_matrix voc toks)
  = map Fin (map (fun i => INR (occurrences voc toks i)) (seq 0 (length voc))).
Proof.
  unfold sum_dim1, encoding_matrix. rewrite !map_map.
  apply map_ext. intros i.
  rewrite <- Rsum_indicator, <- tsum_Fin, map_map. f_equal.
  apply map_ext. intros tok. destruct (Nat.eqb i (resolve voc tok)); reflexivity.
Qed.

Lemma list_sum_indicator (k n a : nat) :
  (a <= k < a + n)%nat ->
  list_sum (map (fun i => if Nat.eqb i k then 1%nat else 0%nat) (seq a n))
  = 1%nat.
Proof.
  revert a. induction n as [|n IH]; intros a Hk; [lia|].
  cbn [seq map list_sum fold_right].
  fold (list_sum (map (fun i => if Nat.eqb i k then 1%nat else 0%nat)
                      (seq (S a) n))).
  destruct (Nat.eqb_spec a k) as [Heq|Hneq].
  - assert (Hz : list_sum (map (fun i => if Nat.eqb i k then 1%nat else 0%nat)
                               (seq (S a) n)) = 0%nat).
    { clear IH. subst k. generalize (Nat.lt_succ_diag_r a).
      generalize (S a) as b. induction n as [|n IHn]; intros b Hb;
        [reflexivity|].
      cbn [seq map list_sum fold_right].
      destruct (Nat.eqb_spec b a) as [Hba|_]; [lia|].
      apply IHn; lia. }
    rewrite Hz. reflexivity.
  - rewrite IH by lia. reflexivity.
Qed.

Lemma list_sum_plus (f g : nat -> nat) (l : list nat) :
  list_sum (map (fun i => (f i + g i)%nat) l)
  = (list_sum (map f l) + list_sum (map g l))%nat.
Proof.
  induction l as [|a l IH]; [reflexivity|].
  cbn [map list_sum fold_right].
  fold (list_sum (map (fun i => (f i + g i)%nat) l)).
  fold (list_sum (map f l)). fold (list_sum (map g l)).
  rewrite IH. lia.
Qed.

(** Every token is counted at exactly one position. *)
Lemma occurrences_total (voc toks : list token) :
  voc <> [] ->
  list_sum (map (occurrences voc toks) (seq 0 (length voc))) = length toks.
Proof.
  intros Hne. induction toks as [|tok toks IH].
  - unfold occurrences. cbn [map count_occ length].
    induction (seq 0 (length voc)) as [|a l IHl]; [reflexivity|].
    cbn [map list_sum fold_right]. exact IHl.
  - cbn [length]. rewrite <- IH.
    change (S ?n) with (1 + n)%nat.
    rewrite <- (list_sum_indicator (resolve voc tok) (length voc) 0) at 1
      by (pose proof (resolve_lt voc tok Hne); lia).
    rewrite <- list_sum_plus. f_equal. apply map_ext. intros i.
    unfold occurrences. cbn [map].
    destruct (Nat.eqb_spec i (resolve voc tok)) as [Heq|Hneq].
    + rewrite count_occ_cons_eq by (symmetry; exact Heq). reflexivity.
    + rewrite count_occ_cons_neq
        by (intros H; apply Hneq; symmetry; exact H).
      reflexivity.
Qed.

Lemma Rsum_INR (l : list nat) : Rsum (map INR l) = INR (list_sum l).
Proof.
  induction l as [|a l IH]; [reflexivity|].
  cbn [map Rsum fold_right list_sum]. fold (Rsum (map INR l)).
  fold (list_sum l). rewrite IH, plus_INR. reflexivity.
Qed.

Lemma fold_dot_Fin (a b : list R) (acc : R) :
  fold_left (fun acc ab => fadd acc (fmul (fst ab) (snd ab)))
            (combine (map Fin a) (map Fin b)) (Fin acc)
  = Fin (acc + Rsum (map (fun ab => fst ab * snd ab) (combine a b))).
Proof.
  revert b acc. induction a as [|x a IH]; intros b acc.
  - simpl. f_equal. lra.
  - destruct b as [|y b]; [simpl; f_equal; lra|].
    cbn [map combine fold_left fst snd fadd fmul Rsum fold_right].
    rewrite IH. f_equal. unfold Rsum. lra.
Qed.

Lemma dot_Fin (a b : list R) :
  dot (map Fin a) (map Fin b)
  = Fin (Rsum (map (fun ab => fst ab * snd ab) (combine a b))).
Proof.
  unfold dot. rewrite fold_dot_Fin. f_equal. lra.
Qed.

Lemma combine_map_same {A B C : Type} (f : A -> B) (g : A -> C) (l : list A) :
  combine (map f l) (map g l) = map (fun x => (f x, g x)) l.
Proof.
  induction l as [|a l IH]; [reflexivity|].
  cbn [map combine]. rewrite IH. reflexivity.
Qed.

Lemma Rsum_opp (f : R -> R) (l : list R) :
  Rsum (map (fun c => - f c) l) = - Rsum (map f l).
Proof.
  induction l as [|a l IH]; simpl; [lra|].
  fold (Rsum (map (fun c => - f c) l)). fold (Rsum (map f l)).
  rewrite IH. lra.
Qed.

Lemma ln_le_minus_1 (x : R) : 0 < x -> ln x <= x - 1.
Proof.
  intros Hx. pose proof (exp_ineq1_le (ln x)) as H.
  rewrite exp_ln in H by exact Hx. lra.
Qed.

(** One term of Gibbs' inequality against the uniform distribution. *)
Lemma gibbs_term (T n c : R) :
  0 < T -> 0 < n -> 0 < c ->
  c * ln (1 / n) - c * ln (c / T) <= T / n - c.
Proof.
  intros HT Hn Hc.
  assert (Hu : 0 < 1 / n) by (apply Rdiv_lt_0_compat; lra).
  assert (Hv : 0 < c / T) by (apply Rdiv_lt_0_compat; lra).
  assert (Hiv : 0 < / (c / T)) by (apply Rinv_0_lt_compat; exact Hv).
  assert (Hln : ln (1 / n) - ln (c / T) = ln (1 / n * / (c / T))).
  { rewrite ln_mult, ln_Rinv by assumption. lra. }
  assert (Hle : ln (1 / n * / (c / T)) <= 1 / n * / (c / T) - 1).
  { apply ln_le_minus_1. apply Rmult_lt_0_compat; assumption. }
  replace (c * ln (1 / n) - c * ln (c / T))
    with (c * (ln (1 / n) - ln (c / T))) by lra.
  rewrite Hln.
  replace (T / n - c) with (c * (1 / n * / (c / T) - 1)) by (field; lra).
  apply Rmult_le_compat_l; lra.
Qed.

Lemma gibbs_sum (T n : R) (cs : list R) :
  0 < T -> 0 < n -> Forall (fun c => 0 < c) cs ->
  Rsum (map (fun c => c * ln (1 / n)) cs)
  - Rsum (map (fun c => c * ln (c / T)) cs)
  <= INR (length cs) * (T / n) - Rsum cs.
Proof.
  intros HT Hn Hall. induction Hall as [|c cs Hc _ IH].
  - simpl. lra.
  - cbn [map Rsum fold_right length].
    fold (Rsum (map (fun c => c * ln (1 / n)) cs)).
    fold (Rsum (map (fun c => c * ln (c / T)) cs)).
    fold (Rsum cs). rewrite S_INR.
    pose proof (gibbs_term T n c HT Hn Hc). lra.
Qed.

(** Gibbs' inequality: the uniform distribution gives positive counts no
    more log-likelihood than their own relative frequencies do. *)
Lemma gibbs_uniform (cs : list R) :
  cs <> [] -> Forall (fun c => 0 < c) cs ->
  Rsum (map (fun c => c * ln (1 / INR (length cs))) cs)
  <= Rsum (map (fun c => c * ln (c / Rsum cs)) cs).
Proof.
  intros Hne Hall.
  assert (Hn : 0 < INR (length cs))
    by (apply INR_pos, length_nonempty; exact Hne).
  assert (HT : 0 < Rsum cs).
  { apply Rsum_pos.
    - apply Forall_impl with (2 := Hall). intros c Hc. lra.
    - destruct Hall as [|c cs Hc _]; [congruence|]. left. lra. }
  pose proof (gibbs_sum (Rsum cs) (INR (length cs)) cs HT Hn Hall) as H.
  replace (INR (length cs) * (Rsum cs / INR (length cs)) - Rsum cs) with 0
    in H by (field; lra).
  lra.
Qed.

Lemma combine_repeat_r (cs : list R) (y : R) :
  combine cs (repeat y (length cs)) = map (fun c => (c, y)) cs.
Proof.
  induction cs as [|c cs IH]; [reflexivity|].
  cbn [length repeat combine map]. rewrite IH. reflexivity.
Qed.

(** The log-likelihood of a batch with counts [cs] under a fresh model. *)
Lemma loglik_init (x : matrix) (cs : list R) :
  sum_dim1 x = map Fin cs -> cs <> [] ->
  loglik (s (Unigram_init (length cs))) x
  = Fin (Rsum (map (fun c => c * ln (1 / INR (length cs))) cs)).
Proof.
  intros Hx Hne. unfold loglik. rewrite Unigram_init_p, Hx, map_repeat.
  assert (Hq : 0 < 1 / INR (length cs)).
  { apply Rdiv_lt_0_compat; [lra|].
    apply INR_pos, length_nonempty. exact Hne. }
  cbn [flog]. rewrite Rsign_pos by exact Hq.
  rewrite <- (map_repeat (ln (1 / INR (length cs))) (length cs) Fin).
  rewrite dot_Fin, combine_repeat_r, map_map. reflexivity.
Qed.

(** The reported minimum for positive counts [cs] and [T] tokens. *)
Lemma min_closed_form (cs : list R) (T : R) :
  Forall (fun c => 0 < c) cs -> 0 < T ->
  dot (map fneg (map Fin cs))
      (map flog (map (fun c => fdiv c (Fin T)) (map Fin cs)))
  = Fin (Rsum (map (fun c => - (c * ln (c / T))) cs)).
Proof.
  intros Hall HT.
  replace (map fneg (map Fin cs)) with (map Fin (map Ropp cs))
    by (rewrite !map_map; reflexivity).
  replace (map flog (map (fun c => fdiv c (Fin T)) (map Fin cs)))
    with (map Fin (map (fun c => ln (c / T)) cs)).
  - rewrite dot_Fin, combine_map_same, map_map. cbn [fst snd].
    f_equal. f_equal. apply map_ext. intros c. lra.
  - rewrite !map_map. apply map_ext_in. intros c Hc.
    rewrite Forall_forall in Hall. specialize (Hall c Hc).
    rewrite fdiv_Fin by exact HT. cbn [flog].
    rewrite Rsign_pos by (apply Rdiv_lt_0_compat; lra). reflexivity.
Qed.

Lemma true_p_closed_form (cs : list R) (T : R) :
  0 < T ->
  map (fun c => fdiv c (Fin T)) (map Fin cs) = map (fun c => Fin (c / T)) cs.
Proof.
  intros HT. rewrite map_map. apply map_ext. intros c.
  apply fdiv_Fin. exact HT.
Qed.

(** *** A symbol that never occurs *)

Lemma fadd_NaN_r (x : num) : fadd x NaN = NaN.
Proof. destruct x; reflexivity. Qed.

Lemma bigsum_NaN (n : nat) (f : nat -> num) (i : nat) :
  (i < n)%nat -> f i = NaN -> bigsum n f = NaN.
Proof.
  intros Hi Hf. induction n as [|n IH]; [lia|].
  cbn [bigsum]. destruct (Nat.eq_dec i n) as [->|Hne].
  - rewrite Hf. apply fadd_NaN_r.
  - rewrite IH by lia. reflexivity.
Qed.

Lemma fge_NaN_r (x : num) : ~ fge x NaN.
Proof. destruct x; simpl; tauto. Qed.

Lemma nth_map_Fin (g : num -> num) (cs : list R) (i : nat) (d : R) :
  (i < length cs)%nat ->
  nth i (map g (map Fin cs)) NaN = g (Fin (nth i cs d)).
Proof.
  intros Hi. rewrite map_map.
  rewrite (nth_indep _ NaN (g (Fin d))) by (rewrite length_map; exact Hi).
  exact (map_nth (fun c => g (Fin c)) cs d i).
Qed.

(** With a zero count the product [0 * log 0] is [nan], and so is the
    reported minimum. *)
Lemma min_nan (cs : list R) (T : R) (i : nat) :
  0 < T -> (i < length cs)%nat -> nth i cs 1 = 0 ->
  dot (map fneg (map Fin cs))
      (map flog (map (fun c => fdiv c (Fin T)) (map Fin cs)))
  = NaN.
Proof.
  intros HT Hi Hz.
  rewrite dot_bigsum by (rewrite !length_map; reflexivity).
  apply bigsum_NaN with (i := i); [rewrite !length_map; exact Hi|].
  rewrite (nth_map_Fin fneg cs i 1 Hi).
  rewrite (map_map _ flog).
  rewrite (nth_map_Fin (fun c => flog (fdiv c (Fin T))) cs i 1 Hi).
  rewrite Hz, fdiv_Fin by exact HT.
  cbn [fneg flog].
  replace (0 / T) with 0 by (field; lra).
  rewrite Rsign_zero. cbn [fmul]. unfold inf_signed.
  replace (- 0) with 0 by lra. rewrite Rsign_zero. reflexivity.
Qed.

Lemma covers_spec (text : string) :
  covers text = true ->
  forall i, (i < length vocabulary)%nat ->
            occurrences vocabulary (tokens text) i <> O.
Proof.
  unfold covers. intros H i Hi. rewrite forallb_forall in H.
  specialize (H i). rewrite in_seq in H.
  assert (Hn : negb (Nat.eqb (occurrences vocabulary (tokens text) i) 0) = true)
    by (apply H; lia).
  apply negb_true_iff, Nat.eqb_neq in Hn. exact Hn.
Qed.

Lemma covers_nonempty (text : string) :
  covers text = true -> text <> EmptyString.
Proof.
  intros H ->. vm_compute in H. discriminate H.
Qed.

(** The counts of a corpus, as reals. *)
Lemma counts_total (text : string) :
  Rsum (map (fun i => INR (occurrences vocabulary (tokens text) i))
            (seq 0 (length vocabulary)))
  = INR (String.length text).
Proof.
  rewrite <- (map_map (occurrences vocabulary (tokens text)) INR).
  rewrite Rsum_INR, occurrences_total by exact vocabulary_nonempty.
  rewrite length_tokens. reflexivity.
Qed.

Lemma text_length_pos (text : string) :
  text <> EmptyString -> 0 < INR (String.length text).
Proof.
  intros Hne. apply INR_pos. destruct text; simpl; congruence.
Qed.

(** ** The training loop *)

Section LoopRun.

Variable opt_state : Type.
Variable adam_init : opt_state.
Variable adam_step : R -> opt_state -> colvec -> colvec -> opt_state * colvec.
Variable autograd : colvec -> matrix -> colvec.

(** The gradient has the shape of the parameter, and an update keeps that
    shape. *)
Hypothesis autograd_shape :
  forall sv x, length (autograd sv x) = length sv.
Hypothesis adam_step_shape :
  forall lr o sv g,
    length g = length sv -> length (snd (adam_step lr o sv g)) = length sv.

Lemma adam_update_shape (x : matrix) (os : opt_state * colvec) :
  length (snd (adam_update adam_step autograd x os)) = length (snd os).
Proof.
  unfold adam_update. apply adam_step_shape, autograd_shape.
Qed.

(** One pass through the loop body from a state whose gradient slot is
    empty: the state it leaves. *)
Lemma train_step_ok (x : matrix) (i : nat) (st : env opt_state) :
  s_grad (model st) = None ->
  length x = length (s (model st)) ->
  train_step adam_step autograd x i st
  = (Ok tt,
     let os := adam_update adam_step autograd x (optimizer st, s (model st)) in
     mkEnv (mkUnigram (snd os) None) (fst os)
           (list_loss st ++ [i])
           (list_items st ++ [fneg (loglik (s (model st)) x)])
           (Some (normalize (map fsigmoid (s (model st)))))).
Proof.
  intros Hgrad Hlen.
  unfold train_step, bind, call_model.
  rewrite (forward_ok x (model st) Hlen).
  unfold backward, optimizer_step, optimizer_zero_grad,
    list_loss_append, list_items_append, adam_update.
  cbn [model optimizer list_loss list_items p s s_grad fst snd].
  rewrite Hgrad.
  destruct (adam_step learning_rate (optimizer st) (s (model st))
                      (autograd (s (model st)) x)) as [o' s'].
  reflexivity.
Qed.

Lemma for_each_train_step (x : matrix) (n : nat) :
  forall (a : nat) (st : env opt_state),
    s_grad (model st) = None ->
    length x = length (s (model st)) ->
    exists st',
      for_each (train_step adam_step autograd x) (seq a n) st = (Ok tt, st') /\
      list_loss st' = list_loss st ++ seq a n /\
      list_items st'
      = list_items st
        ++ map (fun k =>
                  fneg (loglik
                          (snd (Nat.iter k (adam_update adam_step autograd x)
                                         (optimizer st, s (model st)))) x))
               (seq 0 n) /\
      (optimizer st', s (model st'))
      = Nat.iter n (adam_update adam_step autograd x)
                 (optimizer st, s (model st)) /\
      s_grad (model st') = None.
Proof.
  induction n as [|n IH]; intros a st Hgrad Hlen.
  - exists st. cbn [seq for_each map Nat.iter]. unfold ret.
    rewrite !app_nil_r. repeat split; assumption.
  - cbn [seq for_each]. unfold bind at 1.
    rewrite (train_step_ok x a st Hgrad Hlen). cbn zeta.
    set (os := adam_update adam_step autograd x (optimizer st, s (model st))).
    set (st1 := mkEnv _ _ _ _ _).
    destruct (IH (S a) st1) as (st' & Hrun & Hll & Hli & Hos & Hg).
    { reflexivity. }
    { subst st1. cbn [model s]. subst os.
      rewrite adam_update_shape. exact Hlen. }
    exists st'. split; [exact Hrun|].
    subst st1. cbn [model optimizer list_loss list_items s] in *.
    assert (Hos1 : (fst os, snd os) = os) by (destruct os; reflexivity).
    rewrite Hos1 in *.
    split; [rewrite Hll, <- app_assoc; reflexivity|].
    split; [|split; [|exact Hg]].
    + rewrite Hli, <- app_assoc. f_equal. cbn [app map Nat.iter]. f_equal.
      rewrite <- seq_shift, map_map. apply map_ext. intros k.
      subst os. rewrite <- Nat.iter_succ_r. reflexivity.
    + rewrite Hos. subst os. rewrite <- Nat.iter_succ_r. reflexivity.
Qed.


Lemma min_of_ok (x : matrix) (text : string) :
  min_of x (true_p_of x text)
  = Ok (dot (map fneg (sum_dim1 x)) (map flog (true_p_of x text))).
Proof.
  unfold min_of, matmul_T, true_p_of. rewrite !length_map.
  rewrite Nat.eqb_refl. reflexivity.
Qed.

(** The whole run on a non-empty corpus. *)
Lemma gradient_descent_example_ok (text : string) :
  text <> EmptyString ->
  let x := encoding_matrix vocabulary (tokens text) in
  exists st,
    train adam_step autograd num_iterations x (env0 adam_init) = (Ok tt, st) /\
    list_loss st = seq 0 num_iterations /\
    list_items st
    = map (loss_at adam_init adam_step autograd x) (seq 0 num_iterations) /\
    (optimizer st, s (model st))
    = trajectory adam_init adam_step autograd x num_iterations /\
    s_grad (model st) = None /\
    gradient_descent_example adam_init adam_step autograd text
    = Ok (mkReport (list_loss st) (list_items st)
                   (dot (map fneg (sum_dim1 x)) (map flog (true_p_of x text)))
                   (true_p_of x text) (p st)).
Proof.
  intros Hne x.
  destruct (for_each_train_step x num_iterations 0 (env0 adam_init))
    as (st & Hrun & Hll & Hli & Hos & Hg).
  { reflexivity. }
  { subst x. rewrite length_encoding_matrix. cbn [env0 model].
    rewrite Unigram_init_s, repeat_length. reflexivity. }
  exists st. fold (train adam_step autograd num_iterations x) in Hrun.
  split; [exact Hrun|]. split; [exact Hll|]. split; [exact Hli|].
  split; [exact Hos|]. split; [exact Hg|].
  unfold gradient_descent_example.
  rewrite rmap_onehot by exact vocabulary_nonempty. cbn [rbind].
  rewrite hstack_unit_cols by (apply tokens_nonempty; exact Hne).
  cbn [rbind]. fold x. rewrite Hrun, min_of_ok. reflexivity.
Qed.

(** C8: on a non-empty corpus the loop runs its 100 iterations to the end;
    iteration [i], entered with an empty gradient slot, calls the model on
    the whole batch, negates the log-likelihood, takes the gradient at the
    current [s], updates [s] once, clears the gradient and appends [i] and
    the loss; so the history holds the indices 0..99 with the losses along
    the optimizer's trajectory, 100 entries each. *)
Theorem training_history (text : string) :
  text <> EmptyString ->
  let x := encoding_matrix vocabulary (tokens text) in
  num_iterations = 100%nat /\
  (forall (i : nat) (st : env opt_state),
      s_grad (model st) = None ->
      length x = length (s (model st)) ->
      train_step adam_step autograd x i st
      = (Ok tt,
         let os := adam_update adam_step autograd x
                               (optimizer st, s (model st)) in
         mkEnv (mkUnigram (snd os) None) (fst os)
               (list_loss st ++ [i])
               (list_items st ++ [fneg (loglik (s (model st)) x)])
               (Some (normalize (map fsigmoid (s (model st))))))) /\
  exists (st : env opt_state) (r : report),
    train adam_step autograd 100 x (env0 adam_init) = (Ok tt, st) /\
    gradient_descent_example adam_init adam_step autograd text = Ok r /\
    r_list_loss r = seq 0 100 /\
    r_list_items r = map (loss_at adam_init adam_step autograd x) (seq 0 100) /\
    length (r_list_loss r) = 100%nat /\
    length (r_list_items r) = 100%nat /\
    (optimizer st, s (model st))
    = trajectory adam_init adam_step autograd x 100 /\
    s_grad (model st) = None.
Proof.
  intros Hne x. split; [reflexivity|]. split.
  - intros i st. apply train_step_ok.
  - destruct (gradient_descent_example_ok text Hne)
      as (st & Hrun & Hll & Hli & Hos & Hg & Hgde).
    fold x in Hrun, Hli, Hos, Hgde.
    change num_iterations with 100%nat in *.
    exists st. eexists. split; [exact Hrun|]. split; [exact Hgde|].
    cbn [r_list_loss r_list_items]. rewrite Hll, Hli.
    rewrite length_map, length_seq. repeat split; assumption.
Qed.

(** The report of a run on a non-empty corpus, in terms of the counts. *)
Lemma report_by_counts (text : string) :
  text <> EmptyString ->
  let cs := map (fun i => INR (occurrences vocabulary (tokens text) i))
                (seq 0 (length vocabulary)) in
  let T := INR (String.length text) in
  exists r : report,
    gradient_descent_example adam_init adam_step autograd text = Ok r /\
    nth 0 (r_list_items r) NaN
    = fneg (loglik (s (Unigram_init (length vocabulary)))
                   (encoding_matrix vocabulary (tokens text))) /\
    r_min r
    = dot (map fneg (map Fin cs))
          (map flog (map (fun c => fdiv c (Fin T)) (map Fin cs))) /\
    r_true_p r = map (fun c => fdiv c (Fin T)) (map Fin cs).
Proof.
  intros Hne cs T.
  destruct (gradient_descent_example_ok text Hne)
    as (st & _ & _ & Hli & _ & _ & Hgde).
  eexists. split; [exact Hgde|].
  cbn [r_list_items r_min r_true_p]. rewrite Hli.
  unfold true_p_of. rewrite sum_dim1_encoding. fold cs. fold T.
  repeat split.
Qed.

(** X25: when every vocabulary position is hit by some token of the
    corpus, the run succeeds and the loss recorded at iteration 0,
    the negative log-likelihood of the counts under the uniform
    distribution, is at least the reported minimum, their negative
    log-likelihood under the empirical frequencies [count / T]. *)
Theorem initial_loss_above_minimum (text : string) :
  covers text = true ->
  let cs := map (fun i => INR (occurrences vocabulary (tokens text) i))
                (seq 0 (length vocabulary)) in
  let T := INR (String.length text) in
  exists r : report,
    gradient_descent_example adam_init adam_step autograd text = Ok r /\
    nth 0 (r_list_items r) NaN
    = Fin (- Rsum (map (fun c => c * ln (1 / 28)) cs)) /\
    r_true_p r = map (fun c => Fin (c / T)) cs /\
    r_min r = Fin (- Rsum (map (fun c => c * ln (c / T)) cs)) /\
    fge (nth 0 (r_list_items r) NaN) (r_min r).
Proof.
  intros Hcov cs T.
  pose proof (covers_nonempty text Hcov) as Hne.
  pose proof (text_length_pos text Hne) as HT. fold T in HT.
  assert (Hlen : length cs = length vocabulary)
    by (subst cs; rewrite length_map, length_seq; reflexivity).
  assert (Hcs : cs <> [])
    by (intros H; rewrite H in Hlen; discriminate Hlen).
  assert (Hall : Forall (fun c => 0 < c) cs).
  { subst cs. apply Forall_map, Forall_forall. intros i Hi.
    apply in_seq in Hi. apply INR_pos, covers_spec; [exact Hcov|lia]. }
  assert (Htot : Rsum cs = T) by (subst cs T; apply counts_total).
  destruct (report_by_counts text Hne) as (r & Hgde & H0 & Hmin & Htp).
  fold cs in Hmin, Htp. fold T in Hmin, Htp.
  exists r. split; [exact Hgde|].
  rewrite <- Hlen in H0.
  rewrite (loglik_init _ cs) in H0
    by (rewrite ?sum_dim1_encoding; try reflexivity; exact Hcs).
  rewrite min_closed_form in Hmin by assumption.
  rewrite Rsum_opp in Hmin.
  rewrite true_p_closed_form in Htp by exact HT.
  assert (H28 : INR (length cs) = 28)
    by (rewrite Hlen, length_vocabulary, INR_IZR_INZ; reflexivity).
  rewrite H28 in H0. cbn [fneg] in H0.
  split; [exact H0|]. split; [exact Htp|]. split; [exact Hmin|].
  rewrite H0, Hmin. cbn [fge].
  pose proof (gibbs_uniform cs Hcs Hall) as Hg.
  rewrite H28, Htot in Hg. lra.
Qed.

(** When some vocabulary position is hit by no token, the reported
    minimum is [nan] and compares false with every loss. *)
Lemma min_nan_when_symbol_absent (text : string) (i : nat) :
  text <> EmptyString ->
  (i < length vocabulary)%nat ->
  occurrences vocabulary (tokens text) i = O ->
  exists r : report,
    gradient_descent_example adam_init adam_step autograd text = Ok r /\
    r_min r = NaN /\
    ~ fge (nth 0 (r_list_items r) NaN) (r_min r).
Proof.
  intros Hne Hi Hocc.
  destruct (report_by_counts text Hne) as (r & Hgde & _ & Hmin & _).
  exists r. split; [exact Hgde|].
  rewrite min_nan with (i := i) in Hmin.
  - split; [exact Hmin|]. rewrite Hmin. apply fge_NaN_r.
  - apply text_length_pos. exact Hne.
  - rewrite length_map, length_seq. exact Hi.
  - rewrite (nth_indep _ 1 (INR (occurrences vocabulary (tokens text) 0)))
      by (rewrite length_map, length_seq; exact Hi).
    rewrite (map_nth (fun j => INR (occurrences vocabulary (tokens text) j))).
    rewrite seq_nth by exact Hi. cbn [Nat.add]. rewrite Hocc. reflexivity.
Qed.

End LoopRun.

(** ** Concrete runs *)

Lemma zero_gradient_shape (sv : colvec) (x : matrix) :
  length (zero_gradient sv x) = length sv.
Proof. unfold zero_gradient. apply length_map. Qed.

Lemma sgd_step_shape (lr : R) (o : unit) (sv g : colvec) :
  length g = length sv -> length (snd (sgd_step lr o sv g)) = length sv.
Proof.
  intros Hg. unfold sgd_step. cbn [snd].
  rewrite length_map, length_combine, Hg. apply Nat.min_id.
Qed.

Lemma forward_keeps_parameters_witness :
  s (model (snd (optimizer_step sgd_step
                   (mkEnv (mkUnigram [Fin 0] (Some [Fin 1])) tt [] [] None))))
  = snd (sgd_step learning_rate tt [Fin 0] [Fin 1]).
Proof.
  exact (proj2 (proj2 (forward_keeps_parameters unit sgd_step zero_gradient))
               (mkEnv (mkUnigram [Fin 0] (Some [Fin 1])) tt [] [] None)
               [Fin 1] eq_refl).
Defined.

Lemma training_history_witness :
  exists r : report,
    gradient_descent_example tt sgd_step zero_gradient "ab" = Ok r /\
    r_list_loss r = seq 0 100 /\
    length (r_list_items r) = 100%nat.
Proof.
  destruct (training_history unit tt sgd_step zero_gradient
              zero_gradient_shape sgd_step_shape "ab"%string)
    as (_ & _ & st & r & _ & Hgde & Hll & _ & _ & Hlen & _).
  - discriminate.
  - exists r. repeat split; assumption.
Defined.

Lemma initial_loss_above_minimum_witness :
  exists r : report,
    gradient_descent_example tt sgd_step zero_gradient
      "the quick brown fox jumps over a lazy dog!" = Ok r /\
    fge (nth 0 (r_list_items r) NaN) (r_min r).
Proof.
  destruct (initial_loss_above_minimum unit tt sgd_step zero_gradient
              zero_gradient_shape sgd_step_shape
              "the quick brown fox jumps over a lazy dog!"%string)
    as (r & Hgde & _ & _ & _ & Hge).
  - vm_compute. reflexivity.
  - exists r. split; assumption.
Defined.

(* ===================================================================== *)
(** * Further properties of the code *)
(* ===================================================================== *)

(** ** The encoder on its edges *)

(** X1: With an empty vocabulary the fallback index is [-1], which the empty
    array rejects: [onehot] raises [IndexError] for every token. *)
Theorem onehot_empty_vocabulary (tok : token) :
  onehot [] tok = Raise IndexError.
Proof. reflexivity. Qed.

Lemma index_nth_NoDup (voc : list token) (i : nat) (d : token) :
  NoDup voc -> (i < length voc)%nat -> index voc (nth i voc d) = Ok i.
Proof.
  intros Hnd. revert i. induction Hnd as [|v rest Hnin Hnd IH]; intros i Hi.
  - simpl in Hi. lia.
  - destruct i as [|i]; cbn [nth index].
    + destruct (token_eq_dec v v) as [_|Hne]; [reflexivity|congruence].
    + simpl in Hi.
      destruct (token_eq_dec v (nth i rest d)) as [Heq|_].
      * exfalso. apply Hnin. rewrite Heq. apply nth_In. lia.
      * rewrite IH by lia. reflexivity.
Qed.

Lemma resolve_nth_NoDup (voc : list token) (i : nat) (d : token) :
  NoDup voc -> (i < length voc)%nat -> resolve voc (nth i voc d) = i.
Proof.
  intros Hnd Hi. unfold resolve.
  rewrite index_nth_NoDup by assumption. reflexivity.
Qed.

(** X2: Encoding the [i]-th symbol of a duplicate-free vocabulary gives the
    unit column of position [i]: the column read back is the symbol's
    position. *)
Theorem onehot_of_nth (voc : list token) (i : nat) (d : token) :
  NoDup voc -> (i < length voc)%nat ->
  onehot voc (nth i voc d) = Ok (unit_col (length voc) i).
Proof.
  intros Hnd Hi.
  assert (Hne : voc <> []) by (destruct voc; [simpl in Hi; lia|discriminate]).
  rewrite onehot_unit_col by exact Hne.
  rewrite resolve_nth_NoDup by assumption. reflexivity.
Qed.

Lemma onehot_of_nth_witness :
  onehot [Some "a"%string; Some "b"%string; None]
         (nth 1 [Some "a"%string; Some "b"%string; None] None)
  = Ok (unit_col (length [Some "a"%string; Some "b"%string; None]) 1).
Proof.
  apply (onehot_of_nth [Some "a"%string; Some "b"%string; None] 1 None).
  - repeat constructor; simpl; intuition discriminate.
  - simpl. lia.
Defined.

Lemma Fin_1_neq_0 : Fin 1 <> Fin 0.
Proof. intros H. injection H. lra. Qed.

Lemma unit_col_inj (n k k' : nat) :
  (k < n)%nat -> unit_col n k = unit_col n k' -> k = k'.
Proof.
  intros Hk Heq.
  assert (H : nth k (unit_col n k) NaN = nth k (unit_col n k') NaN)
    by (rewrite Heq; reflexivity).
  rewrite !nth_unit_col in H by exact Hk.
  rewrite Nat.eqb_refl in H.
  destruct (Nat.eqb_spec k k') as [Hkk|_]; [exact Hkk|].
  exfalso. exact (Fin_1_neq_0 H).
Qed.

Lemma resolve_In (voc : list token) (tok : token) :
  In tok voc -> nth_error voc (resolve voc tok) = Some tok.
Proof.
  intros Hin. destruct (index_In voc tok Hin) as (i & Hi & _ & Hnth & _).
  unfold resolve. rewrite Hi. exact Hnth.
Qed.

(** X3: Two tokens of the vocabulary with the same encoding are the same
    token: on the vocabulary the encoder loses nothing. *)
Theorem onehot_injective_on_vocabulary (voc : list token) (a b : token) :
  In a voc -> In b voc -> onehot voc a = onehot voc b -> a = b.
Proof.
  intros Ha Hb Heq.
  assert (Hne : voc <> []) by (destruct voc; [contradiction|discriminate]).
  rewrite !onehot_unit_col in Heq by exact Hne.
  injection Heq as Heq.
  apply unit_col_inj in Heq; [|apply resolve_lt; exact Hne].
  pose proof (resolve_In voc a Ha) as Hna.
  pose proof (resolve_In voc b Hb) as Hnb.
  rewrite Heq in Hna. congruence.
Qed.

Lemma onehot_injective_on_vocabulary_witness :
  nth 1 [Some "a"%string; None] None = @None string.
Proof.
  apply (onehot_injective_on_vocabulary
           [Some "a"%string; None]
           (nth 1 [Some "a"%string; None] None) None).
  - simpl. auto.
  - simpl. auto.
  - reflexivity.
Defined.

Lemma last_as_nth (voc : list token) (d : token) :
  last voc d = nth (length voc - 1) voc d.
Proof.
  induction voc as [|v rest IH]; [reflexivity|].
  destruct rest as [|w rest']; [reflexivity|].
  change (last (v :: w :: rest') d) with (last (w :: rest') d).
  rewrite IH. cbn [length]. rewrite !Nat.sub_succ, !Nat.sub_0_r.
  reflexivity.
Qed.

(** X4: A token outside a duplicate-free vocabulary is encoded exactly like
    the vocabulary's last entry: after encoding, unknown tokens and the
    sentinel cannot be told apart. *)
Theorem onehot_unknown_as_last (voc : list token) (tok d : token) :
  voc <> [] -> NoDup voc -> ~ In tok voc ->
  onehot voc tok = onehot voc (last voc d) /\
  onehot voc tok = Ok (unit_col (length voc) (length voc - 1)).
Proof.
  intros Hne Hnd Hnin.
  pose proof (length_nonempty voc Hne) as Hlen.
  rewrite !onehot_unit_col by exact Hne.
  rewrite last_as_nth, resolve_nth_NoDup by (try assumption; lia).
  unfold resolve. rewrite index_not_In by exact Hnin. split; reflexivity.
Qed.

Lemma onehot_unknown_as_last_witness :
  onehot [Some "a"%string; None] (Some "Z"%string)
  = onehot [Some "a"%string; None] (last [Some "a"%string; None] None) /\
  onehot [Some "a"%string; None] (Some "Z"%string)
  = Ok (unit_col (length [Some "a"%string; None])
                 (length [Some "a"%string; None] - 1)).
Proof.
  apply (onehot_unknown_as_last [Some "a"%string; None]
                                (Some "Z"%string) None).
  - discriminate.
  - repeat constructor; simpl; intuition discriminate.
  - simpl. intuition discriminate.
Defined.

Lemma unit_col_as_reals (n k : nat) :
  unit_col n k
  = map Fin (map INR (map (fun i => if Nat.eqb i k then 1%nat else 0%nat)
                          (seq 0 n))).
Proof.
  unfold unit_col. rewrite !map_map. apply map_ext. intros i.
  destruct (Nat.eqb i k); simpl; reflexivity.
Qed.

Lemma tsum_unit_col (n k : nat) : (k < n)%nat -> tsum (unit_col n k) = Fin 1.
Proof.
  intros Hk. rewrite unit_col_as_reals, tsum_Fin, Rsum_INR.
  rewrite list_sum_indicator by lia. reflexivity.
Qed.

Lemma unit_col_binary (n k : nat) :
  Forall (fun v => v = Fin 0 \/ v = Fin 1) (unit_col n k).
Proof.
  unfold unit_col. apply Forall_map, Forall_forall. intros i _.
  destruct (Nat.eqb i k); auto.
Qed.

(** X5: On a non-empty vocabulary every token, known or not, gets an encoding
    whose entries are all 0.0 or 1.0 and add up to 1: one entry is set and
    no more. *)
Theorem onehot_one_entry (voc : list token) (tok : token) :
  voc <> [] ->
  exists e,
    onehot voc tok = Ok e /\
    length e = length voc /\
    Forall (fun v => v = Fin 0 \/ v = Fin 1) e /\
    tsum e = Fin 1.
Proof.
  intros Hne. exists (unit_col (length voc) (resolve voc tok)).
  split; [apply onehot_unit_col; exact Hne|].
  split; [apply length_unit_col|].
  split; [apply unit_col_binary|].
  apply tsum_unit_col, resolve_lt. exact Hne.
Qed.

Lemma onehot_one_entry_witness :
  exists e,
    onehot [Some "a"%string; None] (Some "q"%string) = Ok e /\
    length e = length [Some "a"%string; None] /\
    Forall (fun v => v = Fin 0 \/ v = Fin 1) e /\
    tsum e = Fin 1.
Proof.
  apply (onehot_one_entry [Some "a"%string; None] (Some "q"%string)).
  discriminate.
Defined.

(** ** The vocabulary *)

Lemma resolve_char (c : ascii) :
  resolve vocabulary (Some (String c EmptyString)) = char_position c.
Proof.
  destruct c as [[] [] [] [] [] [] [] []]; vm_compute; reflexivity.
Qed.

Lemma resolve_long (c1 c2 : ascii) (rest : string) :
  resolve vocabulary (Some (String c1 (String c2 rest))) = 27%nat.
Proof.
  unfold resolve.
  rewrite index_not_In; [reflexivity|].
  unfold vocabulary. cbn [seq map app].
  intros Hin. cbn [In] in Hin.
  repeat (destruct Hin as [Hin|Hin]; [discriminate Hin|]).
  exact Hin.
Qed.

(** X6: Where the program's 28-symbol vocabulary sends a token: ['a'..'z'] to
    0..25 in order, the space to 26, and everything else (upper case,
    digits, punctuation, line ends, [None], the empty string and longer
    strings) to the sentinel position 27. *)
Theorem vocabulary_positions :
  (forall c : ascii,
      onehot vocabulary (Some (String c EmptyString))
      = Ok (unit_col 28 (char_position c))) /\
  onehot vocabulary None = Ok (unit_col 28 27) /\
  onehot vocabulary (Some EmptyString) = Ok (unit_col 28 27) /\
  (forall (c1 c2 : ascii) (rest : string),
      onehot vocabulary (Some (String c1 (String c2 rest)))
      = Ok (unit_col 28 27)).
Proof.
  split; [|split; [|split]].
  - intros c. rewrite onehot_unit_col by exact vocabulary_nonempty.
    rewrite resolve_char. reflexivity.
  - rewrite onehot_unit_col by exact vocabulary_nonempty. reflexivity.
  - rewrite onehot_unit_col by exact vocabulary_nonempty. reflexivity.
  - intros c1 c2 rest. rewrite onehot_unit_col by exact vocabulary_nonempty.
    rewrite resolve_long. reflexivity.
Qed.

(** ** The encoding matrix of a corpus *)

Lemma column_of_encoding (voc toks : list token) (t : nat) (d : token) :
  (t < length toks)%nat ->
  map (fun row => nth t row NaN) (encoding_matrix voc toks)
  = unit_col (length voc) (resolve voc (nth t toks d)).
Proof.
  intros Ht. unfold encoding_matrix, unit_col. rewrite map_map.
  apply map_ext. intros i.
  rewrite (nth_indep _ NaN
             (if Nat.eqb i (resolve voc d) then Fin 1 else Fin 0))
    by (rewrite length_map; exact Ht).
  exact (map_nth (fun tok => if Nat.eqb i (resolve voc tok)
                             then Fin 1 else Fin 0) toks d t).
Qed.

(** X7: Stacking the encodings of a non-empty token sequence over a non-empty
    vocabulary succeeds and gives a V-by-T matrix: V rows of T entries,
    every column a unit column (entries add up to 1), every row sum the
    number of tokens encoded at that position, and all entries together
    adding up to T. *)
Theorem encodings_matrix_shape (voc toks : list token) :
  voc <> [] -> toks <> [] ->
  exists x : matrix,
    rbind (rmap (onehot voc) toks) hstack = Ok x /\
    length x = length voc /\
    Forall (fun row => length row = length toks) x /\
    (forall t, (t < length toks)%nat ->
               tsum (map (fun row => nth t row NaN) x) = Fin 1) /\
    sum_dim1 x
    = map (fun i => Fin (INR (occurrences voc toks i))) (seq 0 (length voc)) /\
    tsum (sum_dim1 x) = Fin (INR (length toks)).
Proof.
  intros Hv Ht. exists (encoding_matrix voc toks).
  split; [rewrite rmap_onehot by exact Hv; cbn [rbind];
          apply hstack_unit_cols; exact Ht|].
  split; [apply length_encoding_matrix|].
  split; [unfold encoding_matrix; apply Forall_map, Forall_forall;
          intros i _; apply length_map|].
  split.
  - intros t Hlt. rewrite (column_of_encoding voc toks t None Hlt).
    apply tsum_unit_col, resolve_lt. exact Hv.
  - rewrite sum_dim1_encoding. split; [apply map_map|].
    rewrite tsum_Fin.
    rewrite <- (map_map (occurrences voc toks) INR).
    rewrite Rsum_INR, occurrences_total by exact Hv. reflexivity.
Qed.

Lemma encodings_matrix_shape_witness :
  exists x : matrix,
    rbind (rmap (onehot [Some "a"%string; None])
                [Some "a"%string; Some "b"%string; Some "a"%string])
          hstack = Ok x /\
    length x = length [Some "a"%string; None] /\
    tsum (sum_dim1 x)
    = Fin (INR (length [Some "a"%string; Some "b"%string; Some "a"%string])).
Proof.
  destruct (encodings_matrix_shape
              [Some "a"%string; None]
              [Some "a"%string; Some "b"%string; Some "a"%string])
    as (x & Hx & Hlen & _ & _ & _ & Htot).
  - discriminate.
  - discriminate.
  - exists x. repeat split; assumption.
Defined.

(** ** [logit] and [sigmoid] outside the open interval *)

Lemma Rsign_cases (r : R) :
  (r < 0 /\ Rsign r = Neg) \/ (r = 0 /\ Rsign r = Zero) \/
  (0 < r /\ Rsign r = Pos).
Proof.
  destruct (Rtotal_order r 0) as [H|[H|H]].
  - left. split; [exact H|apply Rsign_neg; exact H].
  - right. left. subst r. split; [reflexivity|apply Rsign_zero].
  - right. right. split; [exact H|apply Rsign_pos; exact H].
Qed.

Lemma logit1_zero : logit1 (Fin 0) = NInf.
Proof.
  unfold logit1, fsub. cbn [flog fneg fadd].
  rewrite Rsign_zero. replace (1 + - 0) with 1 by lra.
  rewrite Rsign_pos by lra. reflexivity.
Qed.

Lemma logit1_outside (x : R) : x < 0 \/ 1 < x -> logit1 (Fin x) = NaN.
Proof.
  intros [H|H]; unfold logit1, fsub; cbn [flog fneg fadd].
  - rewrite (Rsign_neg x) by exact H. reflexivity.
  - rewrite (Rsign_pos x) by lra.
    rewrite (Rsign_neg (1 + - x)) by lra. reflexivity.
Qed.

(** X8: [logit] on every real: [nan] below 0 and above 1, [-inf] at 0, [+inf]
    at 1, and a finite value exactly on the open interval (0,1). *)
Theorem logit_domain (x : R) :
  (x < 0 \/ 1 < x -> logit1 (Fin x) = NaN) /\
  (x = 0 -> logit1 (Fin x) = NInf) /\
  (x = 1 -> logit1 (Fin x) = PInf) /\
  (finite (logit1 (Fin x)) <-> 0 < x < 1).
Proof.
  split; [apply logit1_outside|].
  split; [intros ->; apply logit1_zero|].
  split; [intros ->; apply logit1_one|].
  split.
  - intros Hfin.
    destruct (Rtotal_order x 0) as [H|[H|H]].
    + rewrite logit1_outside in Hfin by (left; exact H). contradiction.
    + subst x. rewrite logit1_zero in Hfin. contradiction.
    + destruct (Rtotal_order x 1) as [H1|[H1|H1]].
      * split; assumption.
      * subst x. rewrite logit1_one in Hfin. contradiction.
      * rewrite logit1_outside in Hfin by (right; exact H1). contradiction.
  - intros Hx. rewrite logit1_Fin by exact Hx. exact I.
Qed.

Lemma logit_domain_witness :
  logit1 (Fin 2) = NaN /\ finite (logit1 (Fin (1 / 2))).
Proof.
  split.
  - apply (proj1 (logit_domain 2)). right. lra.
  - apply (proj2 (proj2 (proj2 (proj2 (logit_domain (1 / 2)))))). lra.
Defined.

(** X9: [sigmoid] undoes [logit] on the whole closed interval: the infinite
    logits of 0 and 1 are sent back to 0 and 1. *)
Theorem sigmoid_logit_closed (xs : list R) :
  Forall (fun x => 0 <= x <= 1) xs ->
  map fsigmoid (logit (map Fin xs)) = map Fin xs.
Proof.
  induction 1 as [|x xs Hx _ IH]; [reflexivity|].
  unfold logit in *. cbn [map]. rewrite IH. f_equal.
  destruct (Req_dec_T x 0) as [->|H0]; [rewrite logit1_zero; reflexivity|].
  destruct (Req_dec_T x 1) as [->|H1]; [rewrite logit1_one; reflexivity|].
  assert (Hin : 0 < x < 1) by lra.
  rewrite logit1_Fin by exact Hin.
  rewrite fsigmoid_Fin, Rsigmoid_logit by exact Hin. reflexivity.
Qed.

Lemma sigmoid_logit_closed_witness :
  map fsigmoid (logit (map Fin [0; 1 / 3; 1])) = map Fin [0; 1 / 3; 1].
Proof.
  apply (sigmoid_logit_closed [0; 1 / 3; 1]).
  repeat constructor; lra.
Defined.

(** ** [normalize] *)

Lemma Rsum_div (rs : list R) (c : R) :
  Rsum (map (fun r => r / c) rs) = Rsum rs / c.
Proof. unfold Rdiv. apply Rsum_scale. Qed.

(** X10: A vector of zeros has total 0, and [0 / 0] is [nan]: [normalize]
    turns it into a vector of [nan]s, without raising. *)
Theorem normalize_zeros (n : nat) :
  normalize (repeat (Fin 0) n) = repeat NaN n.
Proof.
  unfold normalize.
  assert (Ht : tsum (repeat (Fin 0) n) = Fin 0).
  { rewrite <- (map_repeat 0 n Fin), tsum_Fin, Rsum_repeat.
    f_equal. lra. }
  rewrite Ht, map_repeat. f_equal.
  cbn [fdiv]. rewrite Rsign_zero. unfold inf_signed.
  rewrite Rsign_zero. reflexivity.
Qed.

(** ** [loss_fn] *)

(** X13: [loss_fn] reverses the order of floats, infinities included, and is
    its own inverse: the larger the probability the smaller the loss. *)
Theorem loss_fn_antitone (a b : num) :
  (fge a b <-> fge (loss_fn b) (loss_fn a)) /\
  loss_fn (loss_fn a) = a.
Proof.
  split.
  - destruct a as [x| | |], b as [y| | |]; cbn [loss_fn fneg fge];
      try tauto.
    split; intros H; lra.
  - destruct a as [x| | |]; cbn [loss_fn fneg]; try reflexivity.
    f_equal. lra.
Qed.

(** ** The forward pass on its edges *)

Lemma forward_mismatch (input : matrix) (self : Unigram) :
  length input <> length (s self) ->
  forward input self = (Raise RuntimeError, self).
Proof.
  intros Hlen. unfold forward, matmul_T.
  replace (length (sum_dim1 input) =?
           length (map flog (normalize (map fsigmoid (s self)))))%nat
    with false; [reflexivity|].
  symmetry. apply Nat.eqb_neq.
  unfold sum_dim1, normalize. rewrite !length_map. exact Hlen.
Qed.

Lemma env_eta {opt_state : Type} (st : env opt_state) :
  mkEnv (model st) (optimizer st) (list_loss st) (list_items st) (p st) = st.
Proof. destruct st; reflexivity. Qed.

(** X14: A batch whose number of rows differs from the length of [s] makes
    [forward] raise [RuntimeError]; a training run on such a batch stops in
    its first iteration with that error and has changed nothing: no update,
    no gradient, nothing recorded. *)
Theorem shape_mismatch_raises
  (opt_state : Type)
  (adam_step : R -> opt_state -> colvec -> colvec -> opt_state * colvec)
  (autograd : colvec -> matrix -> colvec)
  (x : matrix) (n : nat) (st : env opt_state) :
  length x <> length (s (model st)) ->
  forward x (model st) = (Raise RuntimeError, model st) /\
  train adam_step autograd (S n) x st = (Raise RuntimeError, st).
Proof.
  intros Hlen. pose proof (forward_mismatch x (model st) Hlen) as Hf.
  split; [exact Hf|].
  unfold train. cbn [seq for_each]. unfold bind at 1.
  unfold train_step. unfold bind at 1. unfold call_model.
  rewrite Hf, env_eta. reflexivity.
Qed.

Lemma shape_mismatch_raises_witness :
  forward [[Fin 1]] (model (mkEnv (mkUnigram [Fin 0; Fin 0] None) tt [] [] None))
  = (Raise RuntimeError,
     model (mkEnv (mkUnigram [Fin 0; Fin 0] None) tt [] [] None)) /\
  train sgd_step zero_gradient 3 [[Fin 1]]
        (mkEnv (mkUnigram [Fin 0; Fin 0] None) tt [] [] None)
  = (Raise RuntimeError, mkEnv (mkUnigram [Fin 0; Fin 0] None) tt [] [] None).
Proof.
  apply (shape_mismatch_raises unit sgd_step zero_gradient [[Fin 1]] 2
           (mkEnv (mkUnigram [Fin 0; Fin 0] None) tt [] [] None)).
  simpl. lia.
Defined.


(** ** The history lists *)

Section History.

Variable opt_state : Type.
Variable adam_step : R -> opt_state -> colvec -> colvec -> opt_state * colvec.
Variable autograd : colvec -> matrix -> colvec.

(** One loop body either completes, appending one entry to each list, or
    raises in the model call and leaves the state as it was. *)
Lemma train_step_cases (x : matrix) (i : nat) (st : env opt_state) :
  (exists v st',
      train_step adam_step autograd x i st = (Ok tt, st') /\
      list_loss st' = list_loss st ++ [i] /\
      list_items st' = list_items st ++ [v]) \/
  train_step adam_step autograd x i st = (Raise RuntimeError, st).
Proof.
  destruct (Nat.eq_dec (length x) (length (s (model st)))) as [Hlen|Hlen].
  - left. unfold train_step, bind, call_model.
    rewrite (forward_ok x (model st) Hlen).
    unfold backward, optimizer_step, optimizer_zero_grad,
      list_loss_append, list_items_append.
    cbn [model optimizer list_loss list_items p s s_grad fst snd].
    destruct (adam_step _ _ _ _) as [o' s'].
    eexists. eexists. split; [reflexivity|]. split; reflexivity.
  - right. unfold train_step. unfold bind at 1. unfold call_model.
    rewrite (forward_mismatch x (model st) Hlen), env_eta. reflexivity.
Qed.

Lemma for_each_history (x : matrix) (n : nat) :
  forall (a : nat) (st : env opt_state),
  exists (k : nat) (vs : list num),
    let out := for_each (train_step adam_step autograd x) (seq a n) st in
    list_loss (snd out) = list_loss st ++ seq a k /\
    list_items (snd out) = list_items st ++ vs /\
    length vs = k /\
    ((fst out = Ok tt /\ k = n) \/
     (fst out = Raise RuntimeError /\ (k < n)%nat)).
Proof.
  induction n as [|n IH]; intros a st.
  - exists O, []. cbn. rewrite !app_nil_r. repeat split. left. split; reflexivity.
  - assert (Heq : for_each (train_step adam_step autograd x) (seq a (S n)) st
                  = match train_step adam_step autograd x a st with
                    | (Ok _, st') =>
                        for_each (train_step adam_step autograd x)
                                 (seq (S a) n) st'
                    | (Raise e, st') => (Raise e, st')
                    end) by reflexivity.
    cbn zeta. rewrite Heq. clear Heq.
    destruct (train_step_cases x a st) as [(v & st1 & Hrun & Hll & Hli)|Hrun];
      rewrite Hrun.
    + destruct (IH (S a) st1) as (k & vs & Hk).
      cbn zeta in Hk. destruct Hk as (Hll' & Hli' & Hlen & Hres).
      exists (S k), (v :: vs).
      rewrite Hll', Hli', Hll, Hli, <- !app_assoc. cbn [app seq length].
      split; [reflexivity|]. split; [reflexivity|].
      split; [congruence|].
      destruct Hres as [[Hok ->]|[Hr Hlt]]; [left|right]; split;
        try assumption; lia.
    + exists O, []. cbn. rewrite !app_nil_r.
      split; [reflexivity|]. split; [reflexivity|]. split; [reflexivity|].
      right. split; [reflexivity|lia].
Qed.

(** X16: Whatever the optimizer and the gradient do, and whether the run ends
    normally or raises, the two history lists only grow and stay aligned:
    after [train n] they hold the indices [0 .. k-1] and [k] losses for one
    [k <= n], with [k = n] when the run ended normally and [k < n] when
    the model call raised its [RuntimeError]. *)
Theorem history_aligned (x : matrix) (n : nat) (st : env opt_state) :
  exists (k : nat) (vs : list num),
    let out := train adam_step autograd n x st in
    list_loss (snd out) = list_loss st ++ seq 0 k /\
    list_items (snd out) = list_items st ++ vs /\
    length vs = k /\
    ((fst out = Ok tt /\ k = n) \/
     (fst out = Raise RuntimeError /\ (k < n)%nat)).
Proof. exact (for_each_history x n 0 st). Qed.

End History.

(** ** The run and its report *)

(** X17: On the empty corpus there is nothing to stack: [np.hstack] raises
    [ValueError] before the model is built, whatever the optimizer. *)
Theorem empty_corpus_raises
  (opt_state : Type) (adam_init : opt_state)
  (adam_step : R -> opt_state -> colvec -> colvec -> opt_state * colvec)
  (autograd : colvec -> matrix -> colvec) :
  gradient_descent_example adam_init adam_step autograd EmptyString
  = Raise ValueError.
Proof. reflexivity. Qed.

Lemma fsub_Fin (a b : R) : fsub (Fin a) (Fin b) = Fin (a - b).
Proof. reflexivity. Qed.

Lemma difference_list_Fin (a b : list R) :
  difference_list (map Fin a) (map Fin b)
  = map Fin (map (fun xy => fst xy - snd xy) (combine a b)).
Proof.
  unfold difference_list. revert b.
  induction a as [|x a IH]; intros b; [reflexivity|].
  destruct b as [|y b]; [reflexivity|].
  cbn [map combine fst snd]. rewrite IH. reflexivity.
Qed.

Lemma Rsum_differences (a b : list R) :
  length a = length b ->
  Rsum (map (fun xy => fst xy - snd xy) (combine a b)) = Rsum a - Rsum b.
Proof.
  revert b. induction a as [|x a IH]; intros [|y b] Hlen;
    try discriminate Hlen.
  - simpl. lra.
  - cbn [combine map Rsum fold_right fst snd].
    fold (Rsum (map (fun xy => fst xy - snd xy) (combine a b))).
    fold (Rsum a). fold (Rsum b).
    rewrite IH by (simpl in Hlen; lia). lra.
Qed.

(** X18: The plotted differences: as many as the shorter of the two vectors;
    for real vectors of the same length they add up to the difference of
    the totals, hence to 0 for two distributions. *)
Theorem difference_list_total :
  (forall true_p p' : colvec,
      length (difference_list true_p p')
      = Nat.min (length true_p) (length p')) /\
  (forall a b : list R,
      length a = length b ->
      tsum (difference_list (map Fin a) (map Fin b))
      = Fin (Rsum a - Rsum b)) /\
  (forall a b : list R,
      length a = length b -> Rsum a = 1 -> Rsum b = 1 ->
      tsum (difference_list (map Fin a) (map Fin b)) = Fin 0).
Proof.
  assert (H : forall a b : list R,
             length a = length b ->
             tsum (difference_list (map Fin a) (map Fin b))
             = Fin (Rsum a - Rsum b)).
  { intros a b Hlen.
    rewrite difference_list_Fin, tsum_Fin, Rsum_differences by exact Hlen.
    reflexivity. }
  split; [|split; [exact H|]].
  - intros t q. unfold difference_list.
    rewrite length_map. apply length_combine.
  - intros a b Hlen Ha Hb. rewrite H by exact Hlen.
    f_equal. lra.
Qed.

Lemma difference_list_total_witness :
  tsum (difference_list (map Fin [1 / 2; 1 / 2]) (map Fin [1 / 4; 3 / 4]))
  = Fin 0.
Proof.
  apply (proj2 (proj2 difference_list_total) [1 / 2; 1 / 2] [1 / 4; 3 / 4]).
  - reflexivity.
  - simpl. lra.
  - simpl. lra.
Defined.

Section Report.

Variable opt_state : Type.
Variable adam_init : opt_state.
Variable adam_step : R -> opt_state -> colvec -> colvec -> opt_state * colvec.
Variable autograd : colvec -> matrix -> colvec.

Hypothesis autograd_shape :
  forall sv x, length (autograd sv x) = length sv.
Hypothesis adam_step_shape :
  forall lr o sv g,
    length g = length sv -> length (snd (adam_step lr o sv g)) = length sv.

Lemma ln_inv_28 : ln (1 / 28) = - ln 28.
Proof. unfold Rdiv. rewrite Rmult_1_l, ln_Rinv by lra. reflexivity. Qed.

(** X19: On every non-empty corpus of [T] characters the first recorded loss
    is [T * ln 28]: under the uniform start each character costs [ln 28],
    whatever the text is. *)
Theorem first_loss_value (text : string) :
  text <> EmptyString ->
  exists r : report,
    gradient_descent_example adam_init adam_step autograd text = Ok r /\
    nth 0 (r_list_items r) NaN = Fin (INR (String.length text) * ln 28).
Proof.
  intros Hne.
  destruct (report_by_counts opt_state adam_init adam_step autograd
              autograd_shape adam_step_shape text Hne)
    as (r & Hgde & H0 & _ & _).
  exists r. split; [exact Hgde|].
  set (cs := map (fun i => INR (occurrences vocabulary (tokens text) i))
                 (seq 0 (length vocabulary))) in *.
  assert (Hlen : length cs = length vocabulary)
    by (subst cs; rewrite length_map, length_seq; reflexivity).
  assert (Hcs : cs <> [])
    by (intros H; rewrite H in Hlen; discriminate Hlen).
  rewrite <- Hlen in H0.
  rewrite (loglik_init _ cs) in H0
    by (rewrite ?sum_dim1_encoding; try reflexivity; exact Hcs).
  assert (H28 : INR (length cs) = 28)
    by (rewrite Hlen, length_vocabulary, INR_IZR_INZ; reflexivity).
  assert (Htot : Rsum cs = INR (String.length text))
    by (subst cs; apply counts_total).
  rewrite H28 in H0. rewrite H0. cbn [fneg]. f_equal.
  rewrite Rsum_scale, Htot, ln_inv_28. lra.
Qed.

Lemma occurrences_le (voc toks : list token) (i : nat) :
  (occurrences voc toks i <= length toks)%nat.
Proof.
  unfold occurrences.
  pose proof (count_occ_bound Nat.eq_dec i (map (resolve voc) toks)) as H.
  rewrite length_map in H. exact H.
Qed.

(** X20: The reported [true_p] of a non-empty corpus is its vector of relative
    frequencies: entry [i] is the number of tokens encoded at position [i]
    over the number of tokens, each entry lies in [0,1] and they add up
    to 1. *)
Theorem empirical_frequencies (text : string) :
  text <> EmptyString ->
  exists r : report,
    gradient_descent_example adam_init adam_step autograd text = Ok r /\
    r_true_p r
    = map (fun i => Fin (INR (occurrences vocabulary (tokens text) i)
                         / INR (String.length text)))
          (seq 0 (length vocabulary)) /\
    Forall (fun v => exists q, v = Fin q /\ 0 <= q <= 1) (r_true_p r) /\
    tsum (r_true_p r) = Fin 1.
Proof.
  intros Hne.
  pose proof (text_length_pos text Hne) as HT.
  destruct (report_by_counts opt_state adam_init adam_step autograd
              autograd_shape adam_step_shape text Hne)
    as (r & Hgde & _ & _ & Htp).
  rewrite true_p_closed_form, map_map in Htp by exact HT.
  exists r. split; [exact Hgde|]. split; [exact Htp|].
  rewrite Htp. split.
  - apply Forall_map, Forall_forall. intros i _.
    eexists. split; [reflexivity|].
    pose proof (occurrences_le vocabulary (tokens text) i) as Hle.
    rewrite length_tokens in Hle. apply le_INR in Hle.
    pose proof (pos_INR (occurrences vocabulary (tokens text) i)) as H0.
    split.
    + apply Rmult_le_pos; [exact H0|].
      apply Rlt_le, Rinv_0_lt_compat. exact HT.
    + apply Rmult_le_reg_r with (INR (String.length text)); [exact HT|].
      unfold Rdiv. rewrite Rmult_assoc, Rinv_l by lra. lra.
  - rewrite <- (map_map
                  (fun i => INR (occurrences vocabulary (tokens text) i)
                            / INR (String.length text)) Fin).
    rewrite tsum_Fin.
    rewrite <- (map_map
                  (fun i => INR (occurrences vocabulary (tokens text) i))
                  (fun c => c / INR (String.length text))).
    rewrite Rsum_div, counts_total. f_equal. field. lra.
Qed.

(** The loop's last value of [p], under the same conditions as
    [for_each_train_step]: the distribution of the parameters that
    entered the last iteration. *)
Lemma for_each_last_p (x : matrix) (n : nat) :
  forall (a : nat) (st : env opt_state),
    s_grad (model st) = None ->
    length x = length (s (model st)) ->
    p (snd (for_each (train_step adam_step autograd x) (seq a (S n)) st))
    = Some (normalize
              (map fsigmoid
                   (snd (Nat.iter n (adam_update adam_step autograd x)
                                  (optimizer st, s (model st)))))).
Proof.
  induction n as [|n IH]; intros a st Hgrad Hlen.
  - cbn [seq for_each]. unfold bind at 1.
    rewrite (train_step_ok opt_state adam_step autograd x a st Hgrad Hlen).
    reflexivity.
  - assert (Heq : for_each (train_step adam_step autograd x)
                           (seq a (S (S n))) st
                  = match train_step adam_step autograd x a st with
                    | (Ok _, st') =>
                        for_each (train_step adam_step autograd x)
                                 (seq (S a) (S n)) st'
                    | (Raise e, st') => (Raise e, st')
                    end) by reflexivity.
    rewrite Heq. clear Heq.
    rewrite (train_step_ok opt_state adam_step autograd x a st Hgrad Hlen).
    cbn zeta. rewrite IH.
    + cbn [model optimizer s]. rewrite <- surjective_pairing.
      rewrite <- Nat.iter_succ_r. reflexivity.
    + reflexivity.
    + cbn [model s].
      rewrite (adam_update_shape opt_state adam_step autograd
                 autograd_shape adam_step_shape).
      exact Hlen.
Qed.

Lemma train_last_p (x : matrix) (n : nat) :
  length x = length vocabulary ->
  p (snd (train adam_step autograd (S n) x (env0 adam_init)))
  = Some (normalize
            (map fsigmoid
                 (snd (trajectory adam_init adam_step autograd x n)))).
Proof.
  intros Hx. unfold train, trajectory.
  rewrite (for_each_last_p x n 0 (env0 adam_init)).
  - reflexivity.
  - reflexivity.
  - cbn [env0 model]. rewrite Unigram_init_s, repeat_length. exact Hx.
Qed.

(** X21: The distribution handed to the plots is one update behind the model:
    [p] is computed at the top of the last iteration, from the parameters
    after 99 updates, while the model leaves the loop after 100. *)
Theorem reported_p_one_step_behind (text : string) :
  text <> EmptyString ->
  let x := encoding_matrix vocabulary (tokens text) in
  exists (st : env opt_state) (r : report),
    train adam_step autograd 100 x (env0 adam_init) = (Ok tt, st) /\
    gradient_descent_example adam_init adam_step autograd text = Ok r /\
    r_p r
    = Some (normalize
              (map fsigmoid
                   (snd (trajectory adam_init adam_step autograd x 99)))) /\
    s (model st) = snd (trajectory adam_init adam_step autograd x 100).
Proof.
  intros Hne x.
  destruct (gradient_descent_example_ok opt_state adam_init adam_step
              autograd autograd_shape adam_step_shape text Hne)
    as (st & Hrun & _ & _ & Hos & _ & Hgde).
  fold x in Hrun, Hos, Hgde. change num_iterations with 100%nat in *.
  exists st. eexists. split; [exact Hrun|]. split; [exact Hgde|].
  cbn [r_p]. split.
  - assert (Hx : length x = length vocabulary)
      by (subst x; apply length_encoding_matrix).
    pose proof (train_last_p x 99 Hx) as Hp.
    rewrite Hrun in Hp. exact Hp.
  - rewrite <- Hos. reflexivity.
Qed.

Lemma Rsum_nonpos (l : list R) : Forall (fun v => v <= 0) l -> Rsum l <= 0.
Proof. induction 1 as [|v l Hv _ IH]; simpl; [lra|]. fold (Rsum l). lra. Qed.

(** X22: When every vocabulary position occurs in the corpus the reported
    minimum is a finite number and is not negative. *)
Theorem minimum_nonnegative (text : string) :
  covers text = true ->
  exists (r : report) (m : R),
    gradient_descent_example adam_init adam_step autograd text = Ok r /\
    r_min r = Fin m /\ 0 <= m.
Proof.
  intros Hcov.
  pose proof (covers_nonempty text Hcov) as Hne.
  pose proof (text_length_pos text Hne) as HT.
  destruct (report_by_counts opt_state adam_init adam_step autograd
              autograd_shape adam_step_shape text Hne)
    as (r & Hgde & _ & Hmin & _).
  set (cs := map (fun i => INR (occurrences vocabulary (tokens text) i))
                 (seq 0 (length vocabulary))) in *.
  assert (Hall : Forall (fun c => 0 < c) cs).
  { subst cs. apply Forall_map, Forall_forall. intros i Hi.
    apply in_seq in Hi. apply INR_pos, covers_spec; [exact Hcov|lia]. }
  assert (Hle : Forall (fun c => c <= INR (String.length text)) cs).
  { subst cs. apply Forall_map, Forall_forall. intros i _.
    pose proof (occurrences_le vocabulary (tokens text) i) as Hle.
    rewrite length_tokens in Hle. apply le_INR. exact Hle. }
  rewrite min_closed_form, Rsum_opp in Hmin by assumption.
  exists r. eexists. split; [exact Hgde|]. split; [exact Hmin|].
  assert (Rsum (map (fun c => c * ln (c / INR (String.length text))) cs) <= 0);
    [|lra].
  apply Rsum_nonpos, Forall_map, Forall_forall. intros c Hc.
  rewrite Forall_forall in Hall, Hle.
  specialize (Hall c Hc). specialize (Hle c Hc).
  assert (Hq : 0 < c / INR (String.length text))
    by (apply Rdiv_lt_0_compat; assumption).
  assert (Hq1 : c / INR (String.length text) <= 1).
  { apply Rmult_le_reg_r with (INR (String.length text)); [exact HT|].
    unfold Rdiv. rewrite Rmult_assoc, Rinv_l by lra. lra. }
  pose proof (ln_le_minus_1 _ Hq) as Hln. nra.
Qed.

Lemma map_constant (f : nat -> nat) (k : nat) (l : list nat) :
  Forall (fun i => f i = k) l -> map f l = repeat k (length l).
Proof.
  induction 1 as [|i l Hi _ IH]; [reflexivity|].
  cbn [map length repeat]. rewrite Hi, IH. reflexivity.
Qed.

(** X23: When every vocabulary position occurs equally often, the first
    recorded loss equals the reported minimum: the uniform start is already
    optimal, so the bound between the two is attained. *)
Theorem balanced_corpus_starts_optimal (text : string) (k : nat) :
  k <> O ->
  Forall (fun i => occurrences vocabulary (tokens text) i = k)
         (seq 0 (length vocabulary)) ->
  exists r : report,
    gradient_descent_example adam_init adam_step autograd text = Ok r /\
    nth 0 (r_list_items r) NaN = r_min r /\
    r_min r = Fin (INR (String.length text) * ln 28).
Proof.
  intros Hk Hbal.
  assert (Hcs : map (fun i => INR (occurrences vocabulary (tokens text) i))
                    (seq 0 (length vocabulary))
                = repeat (INR k) 28).
  { rewrite <- (map_repeat k 28 INR),
      <- (map_map (occurrences vocabulary (tokens text)) INR).
    f_equal. rewrite (map_constant _ k _ Hbal), length_seq.
    reflexivity. }
  assert (HT : INR (String.length text) = 28 * INR k).
  { rewrite <- counts_total, Hcs, Rsum_repeat, INR_IZR_INZ. reflexivity. }
  assert (Hkpos : 0 < INR k) by (apply INR_pos; exact Hk).
  assert (Hne : text <> EmptyString).
  { intros ->. simpl in HT. lra. }
  destruct (report_by_counts opt_state adam_init adam_step autograd
              autograd_shape adam_step_shape text Hne)
    as (r & Hgde & H0 & Hmin & _).
  rewrite Hcs in Hmin.
  rewrite min_closed_form in Hmin
    by (try (apply Forall_forall; intros c Hc;
             apply repeat_spec in Hc; subst c; exact Hkpos); lra).
  assert (H0' : nth 0 (r_list_items r) NaN
                = Fin (INR (String.length text) * ln 28)).
  { rewrite H0.
    replace (length vocabulary) with (length (repeat (INR k) 28))
      by (rewrite repeat_length; reflexivity).
    rewrite (loglik_init _ (repeat (INR k) 28))
      by (rewrite ?sum_dim1_encoding, ?Hcs; try reflexivity; discriminate).
    cbn [fneg]. f_equal.
    rewrite Rsum_scale, Rsum_repeat, repeat_length, INR_IZR_INZ.
    change (IZR (Z.of_nat 28)) with 28. rewrite ln_inv_28, HT. lra. }
  exists r. split; [exact Hgde|]. rewrite H0', Hmin.
  assert (Hm : Rsum (map (fun c => - (c * ln (c / INR (String.length text))))
                         (repeat (INR k) 28))
               = INR (String.length text) * ln 28).
  { rewrite map_repeat, Rsum_repeat, INR_IZR_INZ.
    change (IZR (Z.of_nat 28)) with 28.
    replace (INR k / INR (String.length text)) with (1 / 28)
      by (rewrite HT; field; lra).
    rewrite ln_inv_28, HT. lra. }
  rewrite Hm. split; reflexivity.
Qed.

End Report.

Lemma loss_fn_antitone_witness :
  fge (loss_fn (Fin 1)) (loss_fn (Fin 2)).
Proof.
  apply (proj1 (proj1 (loss_fn_antitone (Fin 2) (Fin 1)))).
  simpl. lra.
Defined.

Lemma first_loss_value_witness :
  exists r : report,
    gradient_descent_example tt sgd_step zero_gradient "to be" = Ok r /\
    nth 0 (r_list_items r) NaN = Fin (INR (String.length "to be") * ln 28).
Proof.
  apply (first_loss_value unit tt sgd_step zero_gradient
           zero_gradient_shape sgd_step_shape "to be"%string).
  discriminate.
Defined.

Lemma empirical_frequencies_witness :
  exists r : report,
    gradient_descent_example tt sgd_step zero_gradient "aab " = Ok r /\
    tsum (r_true_p r) = Fin 1.
Proof.
  destruct (empirical_frequencies unit tt sgd_step zero_gradient
              zero_gradient_shape sgd_step_shape "aab "%string)
    as (r & Hgde & _ & _ & Hsum).
  - discriminate.
  - exists r. split; assumption.
Defined.

Lemma reported_p_one_step_behind_witness :
  exists r : report,
    gradient_descent_example tt sgd_step zero_gradient "aab " = Ok r /\
    r_p r
    = Some (normalize
              (map fsigmoid
                   (snd (trajectory tt sgd_step zero_gradient
                           (encoding_matrix vocabulary (tokens "aab "))
                           99)))).
Proof.
  destruct (reported_p_one_step_behind unit tt sgd_step zero_gradient
              zero_gradient_shape sgd_step_shape "aab "%string)
    as (st & r & _ & Hgde & Hp & _).
  - discriminate.
  - exists r. split; assumption.
Defined.

Lemma minimum_nonnegative_witness :
  exists (r : report) (m : R),
    gradient_descent_example tt sgd_step zero_gradient
      "the quick brown fox jumps over a lazy dog!" = Ok r /\
    r_min r = Fin m /\ 0 <= m.
Proof.
  apply (minimum_nonnegative unit tt sgd_step zero_gradient
           zero_gradient_shape sgd_step_shape
           "the quick brown fox jumps over a lazy dog!"%string).
  vm_compute. reflexivity.
Defined.

Lemma balanced_corpus_starts_optimal_witness :
  exists r : report,
    gradient_descent_example tt sgd_step zero_gradient
      "abcdefghijklmnopqrstuvwxyz !" = Ok r /\
    nth 0 (r_list_items r) NaN = r_min r /\
    r_min r
    = Fin (INR (String.length "abcdefghijklmnopqrstuvwxyz !") * ln 28).
Proof.
  apply (balanced_corpus_starts_optimal unit tt sgd_step zero_gradient
           zero_gradient_shape sgd_step_shape
           "abcdefghijklmnopqrstuvwxyz !"%string 1).
  - discriminate.
  - change (length vocabulary) with 28%nat. cbn [seq].
    repeat (apply Forall_cons; [vm_compute; reflexivity|]).
    apply Forall_nil.
Defined.

(** ** The initial parameters in closed form *)

Lemma Rlogit_inv (v : R) : 1 < v -> Rlogit (1 / v) = - ln (v - 1).
Proof.
  intros Hv. unfold Rlogit.
  replace (1 - 1 / v) with ((v - 1) * / v) by (field; lra).
  unfold Rdiv. rewrite Rmult_1_l.
  assert (Hi : 0 < / v) by (apply Rinv_0_lt_compat; lra).
  rewrite ln_mult by lra. rewrite ln_Rinv by lra. lra.
Qed.

(** X24: A fresh model over [V >= 2] symbols has every parameter equal to
    [-ln (V - 1)]; over a single symbol the parameter is [+inf], because
    [logit 1] is infinite. *)
Theorem init_parameter_value (V : nat) :
  (V = 1%nat -> s (Unigram_init V) = [PInf]) /\
  ((2 <= V)%nat ->
   s (Unigram_init V) = repeat (Fin (- ln (INR V - 1))) V).
Proof.
  rewrite Unigram_init_s. split.
  - intros ->. cbn [repeat INR]. replace (1 / 1) with 1 by lra.
    rewrite logit1_one. reflexivity.
  - intros HV. f_equal.
    assert (Hlt : 1 < INR V) by (apply (lt_INR 1); lia).
    assert (Hx : 0 < 1 / INR V < 1).
    { split.
      - apply Rdiv_lt_0_compat; lra.
      - apply Rmult_lt_reg_r with (INR V); [lra|].
        unfold Rdiv. rewrite Rmult_assoc, Rinv_l by lra. lra. }
    rewrite logit1_Fin by exact Hx.
    rewrite Rlogit_inv by exact Hlt. reflexivity.
Qed.

Lemma init_parameter_value_witness :
  s (Unigram_init 1) = [PInf] /\
  s (Unigram_init 28) = repeat (Fin (- ln (INR 28 - 1))) 28.
Proof.
  split.
  - apply (proj1 (init_parameter_value 1)). reflexivity.
  - apply (proj2 (init_parameter_value 28)). lia.
Defined.

(* ===================================================================== *)
(** * The distribution inside and outside the range of float32 *)
(* ===================================================================== *)





















(* ===================================================================== *)
(** * The reported minimum against the minimum of the specification *)
(* ===================================================================== *)

Lemma gibbs_term_nat (T n : R) (c : nat) :
  0 < T -> 0 < n ->
  INR c * ln (1 / n)
  - match c with O => 0 | S _ => INR c * ln (INR c / T) end
  <= T / n - INR c.
Proof.
  intros HT Hn. destruct c as [|k].
  - cbn [INR]. assert (0 < T / n) by (apply Rdiv_lt_0_compat; lra). lra.
  - apply gibbs_term; try assumption. apply INR_pos. discriminate.
Qed.

Lemma gibbs_sum_nat (T : nat) (n : R) (cs : list nat) :
  0 < INR T -> 0 < n ->
  Rsum (map (fun c => INR c * ln (1 / n)) cs) + spec_minimum cs T
  <= INR (length cs) * (INR T / n) - Rsum (map INR cs).
Proof.
  intros HT Hn. unfold spec_minimum.
  induction cs as [|c cs IH]; [simpl; lra|].
  cbn [map Rsum fold_right length].
  fold (Rsum (map (fun c => INR c * ln (1 / n)) cs)).
  fold (Rsum (map (fun c => match c with
                            | O => 0
                            | S _ => - (INR c * ln (INR c / INR T))
                            end) cs)).
  fold (Rsum (map INR cs)). rewrite S_INR.
  pose proof (gibbs_term_nat (INR T) n c HT Hn) as Hc.
  destruct c as [|k]; lra.
Qed.

(** Gibbs' inequality with absent symbols: the minimum of the
    specification never exceeds the loss of the uniform distribution. *)
Lemma spec_minimum_le_uniform (cs : list nat) :
  cs <> [] -> list_sum cs <> O ->
  spec_minimum cs (list_sum cs)
  <= INR (list_sum cs) * ln (INR (length cs)).
Proof.
  intros Hne HT.
  assert (Hn : 0 < INR (length cs))
    by (apply INR_pos, length_nonempty; exact Hne).
  assert (HTp : 0 < INR (list_sum cs)) by (apply INR_pos; exact HT).
  pose proof (gibbs_sum_nat (list_sum cs) (INR (length cs)) cs HTp Hn) as H.
  rewrite Rsum_INR in H.
  replace (INR (length cs) * (INR (list_sum cs) / INR (length cs))
           - INR (list_sum cs)) with 0 in H by (field; lra).
  rewrite <- (map_map INR (fun c => c * ln (1 / INR (length cs)))) in H.
  rewrite Rsum_scale, Rsum_INR in H.
  unfold Rdiv in H. rewrite Rmult_1_l, ln_Rinv in H by exact Hn. lra.
Qed.

(** With every count positive the reported minimum is the minimum of the
    specification. *)
Lemma min_closed_form_spec (cs : list nat) (T : nat) :
  Forall (fun c => c <> O) cs ->
  Rsum (map (fun c => - (c * ln (c / INR T))) (map INR cs))
  = spec_minimum cs T.
Proof.
  intros Hall. unfold spec_minimum. rewrite map_map. f_equal.
  apply map_ext_in. intros c Hc.
  rewrite Forall_forall in Hall. specialize (Hall c Hc).
  destruct c as [|k]; [congruence|reflexivity].
Qed.

Lemma forallb_false {A : Type} (f : A -> bool) (l : list A) :
  forallb f l = false -> exists x, In x l /\ f x = false.
Proof.
  induction l as [|a l IH]; [discriminate|].
  cbn [forallb]. destruct (f a) eqn:Hfa.
  - intros H. destruct (IH H) as (x & Hin & Hx).
    exists x. split; [right; exact Hin|exact Hx].
  - intros _. exists a. split; [left; reflexivity|exact Hfa].
Qed.

Lemma not_covers_spec (text : string) :
  covers text = false ->
  exists i, (i < length vocabulary)%nat /\
            occurrences vocabulary (tokens text) i = O.
Proof.
  unfold covers. intros H.
  destruct (forallb_false _ _ H) as (i & Hin & Hi).
  apply in_seq in Hin. exists i. split; [lia|].
  apply negb_false_iff, Nat.eqb_eq in Hi. exact Hi.
Qed.

Section SpecMinimum.

Variable opt_state : Type.
Variable adam_init : opt_state.
Variable adam_step : R -> opt_state -> colvec -> colvec -> opt_state * colvec.
Variable autograd : colvec -> matrix -> colvec.

Hypothesis autograd_shape :
  forall sv x, length (autograd sv x) = length sv.
Hypothesis adam_step_shape :
  forall lr o sv g,
    length g = length sv -> length (snd (adam_step lr o sv g)) = length sv.

(** The run on a non-empty corpus against the specification: the first
    loss is [T * ln 28] and the specification's minimum is never above it;
    the code reports that minimum when every position occurs, and [nan]
    when one does not. *)
Lemma report_vs_spec_minimum (text : string) :
  text <> EmptyString ->
  let occ := map (occurrences vocabulary (tokens text))
                 (seq 0 (length vocabulary)) in
  let T := String.length text in
  exists r : report,
    gradient_descent_example adam_init adam_step autograd text = Ok r /\
    nth 0 (r_list_items r) NaN = Fin (INR T * ln 28) /\
    spec_minimum occ T <= INR T * ln 28 /\
    (covers text = true -> r_min r = Fin (spec_minimum occ T)) /\
    (covers text = false ->
     r_min r = NaN /\ ~ fge (nth 0 (r_list_items r) NaN) (r_min r)).
Proof.
  intros Hne occ T.
  pose proof (text_length_pos text Hne) as HT. fold T in HT.
  destruct (report_by_counts opt_state adam_init adam_step autograd
              autograd_shape adam_step_shape text Hne)
    as (r & Hgde & H0 & Hmin & _).
  rewrite <- (map_map (occurrences vocabulary (tokens text)) INR) in Hmin.
  fold occ in Hmin. fold T in Hmin.
  assert (Hlen : length occ = 28%nat)
    by (subst occ; rewrite length_map, length_seq; reflexivity).
  assert (Hocc : occ <> [])
    by (intros H; rewrite H in Hlen; discriminate Hlen).
  assert (Htot : list_sum occ = T).
  { subst occ T. rewrite occurrences_total by exact vocabulary_nonempty.
    apply length_tokens. }
  assert (H28 : INR (length (map INR occ)) = 28)
    by (rewrite length_map, Hlen, INR_IZR_INZ; reflexivity).
  exists r. split; [exact Hgde|]. split; [|split; [|split]].
  - rewrite H0.
    replace (length vocabulary) with (length (map INR occ))
      by (rewrite length_map; exact Hlen).
    rewrite (loglik_init _ (map INR occ)).
    + cbn [fneg]. f_equal. rewrite H28, Rsum_scale, Rsum_INR, Htot.
      unfold Rdiv. rewrite Rmult_1_l, ln_Rinv by lra. lra.
    + rewrite sum_dim1_encoding.
      rewrite <- (map_map (occurrences vocabulary (tokens text)) INR).
      reflexivity.
    + intros H. apply map_eq_nil in H. contradiction.
  - pose proof (spec_minimum_le_uniform occ Hocc) as Hle.
    rewrite Htot, Hlen in Hle.
    replace (INR 28) with 28 in Hle by (rewrite INR_IZR_INZ; reflexivity).
    apply Hle. intros Hz. rewrite Hz in HT. simpl in HT. lra.
  - intros Hcov. rewrite Hmin.
    assert (Hall : Forall (fun c => c <> O) occ).
    { subst occ. apply Forall_map, Forall_forall. intros i Hi.
      apply in_seq in Hi. apply covers_spec; [exact Hcov|lia]. }
    rewrite min_closed_form.
    + rewrite min_closed_form_spec by exact Hall. reflexivity.
    + apply Forall_map. apply Forall_impl with (2 := Hall).
      intros c Hc. apply INR_pos. exact Hc.
    + exact HT.
  - intros Hcov. destruct (not_covers_spec text Hcov) as (i & Hi & Hz).
    assert (Hnan : r_min r = NaN).
    { rewrite Hmin. apply min_nan with (i := i).
      - exact HT.
      - rewrite length_map, Hlen. rewrite length_vocabulary in Hi. exact Hi.
      - subst occ. rewrite map_map.
        rewrite (nth_indep _ 1 (INR (occurrences vocabulary (tokens text) 0)))
          by (rewrite length_map, length_seq; exact Hi).
        rewrite (map_nth (fun j => INR (occurrences vocabulary
                                          (tokens text) j))).
        rewrite seq_nth by exact Hi. cbn [Nat.add]. rewrite Hz. reflexivity. }
    split; [exact Hnan|]. rewrite Hnan. apply fge_NaN_r.
Qed.

End SpecMinimum.

(** C3: on the corpus ["a"] the first recorded loss is [ln 28] and the
    minimum of the specification (the negative log-likelihood of the
    corpus under its empirical frequencies) is 0, so the claim holds of
    the two quantities it names; but the code evaluates [0 * log 0] for
    the 27 symbols that do not occur, reports [nan] as the minimum, and
    the comparison of the first loss with it is false. *)
Theorem reported_minimum_nan_on_corpus_a :
  exists r : report,
    gradient_descent_example tt sgd_step zero_gradient "a" = Ok r /\
    nth 0 (r_list_items r) NaN = Fin (ln 28) /\
    spec_minimum (map (occurrences vocabulary (tokens "a"))
                      (seq 0 (length vocabulary)))
                 (String.length "a") = 0 /\
    0 <= ln 28 /\
    r_min r = NaN /\
    ~ fge (nth 0 (r_list_items r) NaN) (r_min r).
Proof.
  destruct (report_vs_spec_minimum unit tt sgd_step zero_gradient
              zero_gradient_shape sgd_step_shape "a"%string)
    as (r & Hgde & H0 & _ & _ & Hnan); [discriminate|].
  destruct Hnan as [Hnan Hfalse]; [vm_compute; reflexivity|].
  exists r. split; [exact Hgde|].
  split; [rewrite H0; f_equal; simpl; lra|].
  split.
  - assert (Hocc : map (occurrences vocabulary (tokens "a"))
                       (seq 0 (length vocabulary))
                   = 1%nat :: repeat 0%nat 27) by (vm_compute; reflexivity).
    rewrite Hocc. unfold spec_minimum.
    cbn [repeat map Rsum fold_right String.length INR].
    replace (1 / 1) with 1 by lra. rewrite ln_1. lra.
  - split; [|split; assumption].
    rewrite <- ln_1. left. apply ln_increasing; lra.
Qed.
